(** * Lineup deduplication: similarity test and merge (src/main.py)

    A shallow embedding of [calculate_distance], [calculate_angle_difference],
    [is_similar_lineup], [merge_lineups] and [combine_json_files], and the
    properties of the similarity-based merge that the specification lists.

    The similarity test is embedded twice.

    - On exact numbers ([Q]): the arithmetic of Python's [int], and of
      [float] with rounding left out.  [math.sqrt] is kept symbolic (a
      radicand) and compared with a threshold through squares.  The merge,
      the store of list objects and the run over the files are built on this
      embedding; what is proved there depends on the outcome of the
      comparisons only, not on how a number is represented.

    - On Python's numbers (module [Py]): [int] as [Z], [float] as a binary64
      double ([PrimFloat]), with the conversions between them, the rounding of
      each operation, [OverflowError], and loops that need not end.  What the
      specification says about the computed distances, about malformed
      values and about termination is settled on this embedding. *)

From stdpp Require Import base option list gmap strings.
From Stdlib Require Import QArith Qabs Qround Lia Lra Psatz.
From Stdlib Require Import Reals Qreals.
From Stdlib Require PrimFloat Floats.

Local Open Scope Q_scope.
Set Warnings "-register-all".

(** ** JSON values, as [json.load] builds them *)

Inductive value : Type :=
  | VNull
  | VBool (b : bool)
  | VNum (q : Q)
  | VStr (s : string)
  | VList (l : list value)
  | VDict (d : list (string * value)).

(** A lineup is a dictionary with string keys. *)
Abbreviation lineup := (gmap string value).

(** ** Exceptions and results *)

(** [OverflowError] and [ValueError] come from the arithmetic of [float]
    only; on exact numbers they are never raised. *)
Inductive exn : Type :=
  TypeError | IndexError | KeyError | OverflowError | ValueError.

Inductive outcome (A : Type) : Type :=
  | Ok (a : A)
  | Raise (e : exn).
Arguments Ok {A} a.
Arguments Raise {A} e.

#[global] Instance outcome_ret : MRet outcome := λ A a, Ok a.
#[global] Instance outcome_bind : MBind outcome := λ A B k r,
  match r with
  | Ok a => k a
  | Raise e => Raise e
  end.
#[global] Instance outcome_fmap : FMap outcome := λ A B f r,
  match r with
  | Ok a => Ok (f a)
  | Raise e => Raise e
  end.

(** ** Python's arithmetic on JSON values *)

(** [bool] is a subclass of [int]: [True] counts as 1 and [False] as 0. *)
Definition as_num (v : value) : outcome Q :=
  match v with
  | VNum q => Ok q
  | VBool b => Ok (if b then 1 else 0)
  | _ => Raise TypeError
  end.

(** [a - b] *)
Definition py_sub (a b : value) : outcome Q :=
  x ← as_num a; y ← as_num b; Ok (x - y).

Fixpoint string_chars (s : string) : list value :=
  match s with
  | EmptyString => []
  | String c rest => VStr (String c EmptyString) :: string_chars rest
  end.

(** [iter(v)]: lists yield their items, strings their characters and
    dictionaries their keys; nothing else is iterable. *)
Definition py_iter (v : value) : outcome (list value) :=
  match v with
  | VList l => Ok l
  | VStr s => Ok (string_chars s)
  | VDict d => Ok (VStr <$> d.*1)
  | _ => Raise TypeError
  end.

(** [v[i]] for an integer index [i >= 0].  A dictionary read from JSON
    has string keys only, so an integer key is never found. *)
Definition py_index (v : value) (i : nat) : outcome value :=
  match v with
  | VList l => from_option Ok (Raise IndexError) (l !! i)
  | VStr s => from_option Ok (Raise IndexError) (string_chars s !! i)
  | VDict _ => Raise KeyError
  | _ => Raise TypeError
  end.

Definition Qgtb (x y : Q) : bool := negb (Qle_bool x y).
Definition Qltb (x y : Q) : bool := negb (Qle_bool y x).

(** The value of [math.sqrt(radicand)], kept symbolic. *)
Inductive root : Type := Sqrt (radicand : Q).

(** [math.sqrt(s) <= m], decided on the squares. *)
Definition root_leb (r : root) (m : Q) : bool :=
  match r with
  | Sqrt s => Qle_bool 0 m && Qle_bool s (m * m)
  end.

(** ** calculate_distance *)

(** [zip(pos1, pos2)] stops at the shorter of the two. *)
Fixpoint py_zip (l1 l2 : list value) : list (value * value) :=
  match l1, l2 with
  | a :: l1', b :: l2' => (a, b) :: py_zip l1' l2'
  | _, _ => []
  end.

(** [sum((a - b) ** 2 for a, b in pairs)], from the accumulator [acc]. *)
Fixpoint sum_squares (acc : Q) (pairs : list (value * value)) : outcome Q :=
  match pairs with
  | [] => Ok acc
  | (a, b) :: rest => d ← py_sub a b; sum_squares (acc + d ^ 2) rest
  end.

Definition calculate_distance (pos1 pos2 : value) : outcome root :=
  l1 ← py_iter pos1;
  l2 ← py_iter pos2;
  s ← sum_squares 0 (py_zip l1 l2);
  Ok (Sqrt s).

(** ** calculate_angle_difference *)

(** [while angle > 180: angle -= 360] *)
Fixpoint while_gt (fuel : nat) (angle : Q) : option Q :=
  if Qgtb angle 180 then
    match fuel with
    | O => None
    | S fuel' => while_gt fuel' (angle - 360)
    end
  else Some angle.

(** [while angle < -180: angle += 360] *)
Fixpoint while_lt (fuel : nat) (angle : Q) : option Q :=
  if Qltb angle (-180) then
    match fuel with
    | O => None
    | S fuel' => while_lt fuel' (angle + 360)
    end
  else Some angle.

(** The two loops in sequence; [None] when [fuel] iterations are not
    enough for one of them. *)
Definition normalize_angle_fuel (fuel : nat) (angle : Q) : option Q :=
  a ← while_gt fuel angle; while_lt fuel a.

(** A number of iterations that is enough for either loop. *)
Definition angle_fuel (angle : Q) : nat :=
  Z.to_nat (Qceiling (Qabs angle / 360)).

Definition normalize_angle (angle : Q) : Q :=
  default angle (normalize_angle_fuel (angle_fuel angle) angle).

Definition calculate_angle_difference (angle1 angle2 : value) : outcome root :=
  p1 ← py_index angle1 0;
  p2 ← py_index angle2 0;
  dp ← py_sub p1 p2;
  let pitch_diff := Qabs (normalize_angle dp) in
  y1 ← py_index angle1 1;
  y2 ← py_index angle2 1;
  dy ← py_sub y1 y2;
  let yaw_diff := Qabs (normalize_angle dy) in
  let yaw_diff := if Qgtb yaw_diff 180 then 360 - yaw_diff else yaw_diff in
  Ok (Sqrt (pitch_diff ^ 2 + yaw_diff ^ 2)).

(** ** is_similar_lineup *)

Definition is_similar_lineup (max_pos max_angle : Q)
    (lineup1 lineup2 : lineup) : outcome bool :=
  match lineup1 !! "position", lineup2 !! "position" with
  | Some pos1, Some pos2 =>
      match lineup1 !! "viewangles", lineup2 !! "viewangles" with
      | Some va1, Some va2 =>
          pos_distance ← calculate_distance pos1 pos2;
          angle_diff ← calculate_angle_difference va1 va2;
          Ok (root_leb pos_distance max_pos && root_leb angle_diff max_angle)
      | _, _ => Ok false
      end
  | _, _ => Ok false
  end.

(** ** merge_lineups *)

(** The store of list objects: [merge_lineups] receives references to two
    lists, copies one and appends to the copy. *)
Abbreviation loc := positive.
Abbreviation heap := (gmap loc (list lineup)).

Definition list_read (l : loc) (h : heap) : list lineup :=
  default [] (h !! l).

(** [l.copy()]: a new list object with the same items. *)
Definition list_copy (l : loc) (h : heap) : heap * loc :=
  let l' := fresh (dom h) in (<[l' := list_read l h]> h, l').

(** [l.append(x)] *)
Definition list_append (l : loc) (x : lineup) (h : heap) : heap :=
  <[l := list_read l h ++ [x]]> h.

(** The inner loop, [for existing_lineup in result], with its [break];
    the value is [is_duplicate]. *)
Fixpoint scan (max_pos max_angle : Q) (new_lineup : lineup)
    (items : list lineup) : outcome bool :=
  match items with
  | [] => Ok false
  | existing_lineup :: rest =>
      similar ← is_similar_lineup max_pos max_angle new_lineup existing_lineup;
      if similar : bool then Ok true
      else scan max_pos max_angle new_lineup rest
  end.

(** The outer loop, [for new_lineup in new_lineups]; [result] is the list
    object that the loop appends to.  The items of the batch are taken as
    they are when the loop starts: the loop writes to [result] only, a list
    of its own, so the list it walks does not change under it.  An
    exception leaves the store as it is at that point. *)
Fixpoint merge_loop (max_pos max_angle : Q) (result : loc)
    (new_lineups : list lineup) (h : heap) : heap * outcome unit :=
  match new_lineups with
  | [] => (h, Ok ())
  | new_lineup :: rest =>
      match scan max_pos max_angle new_lineup (list_read result h) with
      | Raise e => (h, Raise e)
      | Ok is_duplicate =>
          let h' := if is_duplicate : bool then h
                    else list_append result new_lineup h in
          merge_loop max_pos max_angle result rest h'
      end
  end.

Definition merge_lineups (max_pos max_angle : Q)
    (existing_lineups new_lineups : loc) (h : heap) : heap * outcome loc :=
  let '(h1, result) := list_copy existing_lineups h in
  match merge_loop max_pos max_angle result (list_read new_lineups h1) h1 with
  | (h2, Ok _) => (h2, Ok result)
  | (h2, Raise e) => (h2, Raise e)
  end.

(** [merge] of the specification: [merge_lineups] called on two lists held
    in a store of their own, and the items of the list it returns. *)
Definition merge (max_pos max_angle : Q)
    (existing candidates : list lineup) : outcome (list lineup) :=
  let h : heap := {[ 1%positive := existing; 2%positive := candidates ]} in
  match merge_lineups max_pos max_angle 1 2 h with
  | (h', Ok r) => Ok (list_read r h')
  | (_, Raise e) => Raise e
  end.

(** ** The similarity test on Python's numbers

    The same three functions, with the numbers as Python has them after
    [json.load]: an [int] of any size, or a [float], a binary64 double with
    round to nearest even.  A loop takes a number of iterations, the fuel;
    [OutOfFuel] says that the loop was still running when it was used up. *)

Module Py.
Import PrimFloat SpecFloat FloatOps.
Local Open Scope Z_scope.

Inductive value : Type :=
  | VNull
  | VBool (b : bool)
  | VInt (z : Z)
  | VFloat (f : float)
  | VStr (s : string)
  | VList (l : list value)
  | VDict (d : list (string * value)).

Abbreviation lineup := (gmap string value).

Inductive result (A : Type) : Type :=
  | Returns (a : A)
  | Raises (e : exn)
  | OutOfFuel.
Arguments Returns {A} a.
Arguments Raises {A} e.
Arguments OutOfFuel {A}.

#[global] Instance result_ret : MRet result := λ A a, Returns a.
#[global] Instance result_bind : MBind result := λ A B k r,
  match r with
  | Returns a => k a
  | Raises e => Raises e
  | OutOfFuel => OutOfFuel
  end.

(** A number: an [int] or a [float]. *)
Inductive num : Type :=
  | NInt (z : Z)
  | NFloat (f : float).

(** [float(z)]: the nearest double, ties to even; an [int] beyond the
    range of the doubles raises [OverflowError]. *)
Definition float_of_int (z : Z) : result float :=
  let f := SF2Prim (binary_normalize prec emax z 0 false) in
  if is_infinity f then Raises OverflowError else Returns f.

(** The operand of a mixed operation, and the argument of [math.sqrt]. *)
Definition to_float (x : num) : result float :=
  match x with
  | NInt z => float_of_int z
  | NFloat f => Returns f
  end.

(** A [float] against an [int]: Python compares the exact values.  There
    is no answer for a NaN. *)
Definition float_cmp_int (f : float) (z : Z) : option comparison :=
  match Prim2SF f with
  | S754_nan => None
  | S754_infinity s => Some (if s then Lt else Gt)
  | S754_zero _ => Some (0 ?= z)
  | S754_finite s m e =>
      let v := if s then Z.neg m else Z.pos m in
      Some (if 0 <=? e then v * 2 ^ e ?= z else v ?= z * 2 ^ (- e))
  end.

(** [x < y] *)
Definition num_ltb (x y : num) : bool :=
  match x, y with
  | NInt a, NInt b => a <? b
  | NFloat a, NFloat b => ltb a b
  | NFloat a, NInt b => bool_decide (float_cmp_int a b = Some Lt)
  | NInt a, NFloat b => bool_decide (float_cmp_int b a = Some Gt)
  end.

(** [x <= y] *)
Definition num_leb (x y : num) : bool :=
  match x, y with
  | NInt a, NInt b => a <=? b
  | NFloat a, NFloat b => leb a b
  | NFloat a, NInt b =>
      bool_decide (float_cmp_int a b = Some Lt ∨ float_cmp_int a b = Some Eq)
  | NInt a, NFloat b =>
      bool_decide (float_cmp_int b a = Some Gt ∨ float_cmp_int b a = Some Eq)
  end.

(** [x - y]: exact on two [int]s, otherwise the rounded difference of the
    two doubles. *)
Definition num_sub (x y : num) : result num :=
  match x, y with
  | NInt a, NInt b => Returns (NInt (a - b))
  | _, _ => a ← to_float x; b ← to_float y; Returns (NFloat (sub a b))
  end.

(** [x + y] *)
Definition num_add (x y : num) : result num :=
  match x, y with
  | NInt a, NInt b => Returns (NInt (a + b))
  | _, _ => a ← to_float x; b ← to_float y; Returns (NFloat (add a b))
  end.

(** [x ** 2] on a [float]: a NaN stays, an infinity gives the positive
    infinity, and a finite [x] gives the rounded product, or raises
    [OverflowError] when the product is out of range.  A product too small
    for a double is 0. *)
Definition float_pow2 (x : float) : result float :=
  if is_nan x then Returns x
  else if is_infinity x then Returns infinity
  else
    let y := mul x x in
    if is_infinity y then Raises OverflowError else Returns y.

(** [x ** 2] *)
Definition num_pow2 (x : num) : result num :=
  match x with
  | NInt z => Returns (NInt (z ^ 2))
  | NFloat f => y ← float_pow2 f; Returns (NFloat y)
  end.

(** [abs(x)] *)
Definition num_abs (x : num) : num :=
  match x with
  | NInt z => NInt (Z.abs z)
  | NFloat f => NFloat (abs f)
  end.

(** [math.sqrt(x)]: the argument as a double, [ValueError] below 0, and
    the correctly rounded root otherwise. *)
Definition math_sqrt (x : num) : result float :=
  f ← to_float x;
  if ltb f 0 then Raises ValueError else Returns (sqrt f).

(** [bool] is a subclass of [int]. *)
Definition as_num (v : value) : result num :=
  match v with
  | VInt z => Returns (NInt z)
  | VFloat f => Returns (NFloat f)
  | VBool b => Returns (NInt (if b then 1 else 0))
  | _ => Raises TypeError
  end.

(** [a - b] *)
Definition py_sub (a b : value) : result num :=
  x ← as_num a; y ← as_num b; num_sub x y.

Fixpoint string_chars (s : string) : list value :=
  match s with
  | EmptyString => []
  | String c rest => VStr (String c EmptyString) :: string_chars rest
  end.

(** [iter(v)] *)
Definition py_iter (v : value) : result (list value) :=
  match v with
  | VList l => Returns l
  | VStr s => Returns (string_chars s)
  | VDict d => Returns (VStr <$> d.*1)
  | _ => Raises TypeError
  end.

(** [v[i]] *)
Definition py_index (v : value) (i : nat) : result value :=
  match v with
  | VList l => from_option Returns (Raises IndexError) (l !! i)
  | VStr s => from_option Returns (Raises IndexError) (string_chars s !! i)
  | VDict _ => Raises KeyError
  | _ => Raises TypeError
  end.

Fixpoint py_zip (l1 l2 : list value) : list (value * value) :=
  match l1, l2 with
  | a :: l1', b :: l2' => (a, b) :: py_zip l1' l2'
  | _, _ => []
  end.

(** [sum((a - b) ** 2 for a, b in pairs)], from the accumulator [acc]:
    each term is computed and then added, pair after pair. *)
Fixpoint sum_squares (acc : num) (pairs : list (value * value)) : result num :=
  match pairs with
  | [] => Returns acc
  | (a, b) :: rest =>
      d ← py_sub a b;
      term ← num_pow2 d;
      acc' ← num_add acc term;
      sum_squares acc' rest
  end.

(** [sum] starts from the [int] 0. *)
Definition calculate_distance (pos1 pos2 : value) : result float :=
  l1 ← py_iter pos1;
  l2 ← py_iter pos2;
  s ← sum_squares (NInt 0) (py_zip l1 l2);
  math_sqrt s.

(** [while angle > 180: angle -= 360] *)
Fixpoint while_gt (fuel : nat) (angle : num) : result num :=
  if num_ltb (NInt 180) angle then
    match fuel with
    | O => OutOfFuel
    | S fuel' => angle' ← num_sub angle (NInt 360); while_gt fuel' angle'
    end
  else Returns angle.

(** [while angle < -180: angle += 360] *)
Fixpoint while_lt (fuel : nat) (angle : num) : result num :=
  if num_ltb angle (NInt (-180)) then
    match fuel with
    | O => OutOfFuel
    | S fuel' => angle' ← num_add angle (NInt 360); while_lt fuel' angle'
    end
  else Returns angle.

Definition normalize_angle (fuel : nat) (angle : num) : result num :=
  a ← while_gt fuel angle; while_lt fuel a.

Definition calculate_angle_difference (fuel : nat) (angle1 angle2 : value)
    : result float :=
  p1 ← py_index angle1 0;
  p2 ← py_index angle2 0;
  dp ← py_sub p1 p2;
  np ← normalize_angle fuel dp;
  let pitch_diff := num_abs np in
  y1 ← py_index angle1 1;
  y2 ← py_index angle2 1;
  dy ← py_sub y1 y2;
  ny ← normalize_angle fuel dy;
  let yaw_diff := num_abs ny in
  yaw_diff ← (if num_ltb (NInt 180) yaw_diff then num_sub (NInt 360) yaw_diff
              else Returns yaw_diff);
  sp ← num_pow2 pitch_diff;
  sy ← num_pow2 yaw_diff;
  t ← num_add sp sy;
  math_sqrt t.

Definition is_similar_lineup (fuel : nat) (max_pos max_angle : num)
    (lineup1 lineup2 : lineup) : result bool :=
  match lineup1 !! "position", lineup2 !! "position" with
  | Some pos1, Some pos2 =>
      match lineup1 !! "viewangles", lineup2 !! "viewangles" with
      | Some va1, Some va2 =>
          pos_distance ← calculate_distance pos1 pos2;
          angle_diff ← calculate_angle_difference fuel va1 va2;
          Returns (num_leb (NFloat pos_distance) max_pos
                   && num_leb (NFloat angle_diff) max_angle)
      | _, _ => Returns false
      end
  | _, _ => Returns false
  end.

(** *** Notions of the statements *)

(** The centred reduction modulo 360 of the specification, on integers:
    the representative of [d] in the interval (-180, 180]. *)
Definition centered_mod (d : Z) : Z := 180 - (180 - d) mod 360.

(** What the two loops return on an [int]. *)
Definition normalized_int (d : Z) : Z :=
  if 180 <? d then centered_mod d
  else if d <? -180 then - centered_mod (- d)
  else d.

Definition numeric (v : value) : Prop := ∃ x, as_num v = Returns x.

(** The entries that [calculate_distance] reads are there and are numbers:
    the positions are iterable and the entries that [zip] pairs numeric. *)
Definition readable_position (pos1 pos2 : value) : Prop :=
  ∃ l1 l2, py_iter pos1 = Returns l1 ∧ py_iter pos2 = Returns l2 ∧
           Forall (λ ab, numeric ab.1 ∧ numeric ab.2) (py_zip l1 l2).

(** The entries that [calculate_angle_difference] reads: the viewangles
    can be indexed at 0 and 1 and hold numbers there. *)
Definition readable_viewangles (va1 va2 : value) : Prop :=
  ∃ p1 p2 y1 y2,
    py_index va1 0 = Returns p1 ∧ py_index va2 0 = Returns p2 ∧
    py_index va1 1 = Returns y1 ∧ py_index va2 1 = Returns y2 ∧
    numeric p1 ∧ numeric p2 ∧ numeric y1 ∧ numeric y2.

(** Neither infinite nor NaN. *)
Definition finite (x : float) : bool :=
  negb (is_nan x) && negb (is_infinity x).

(** *** Lineups of the examples *)

(** A lineup with [int] components. *)
Definition int_lineup (x1 x2 x3 pitch yaw : Z) (rest : lineup) : lineup :=
  <["position" := VList [VInt x1; VInt x2; VInt x3]]>
    (<["viewangles" := VList [VInt pitch; VInt yaw]]> rest).

Definition origin : lineup := int_lineup 0 0 0 0 0 ∅.

(** At distance 5 from [yaw_minus_179], the yaw angles 2 apart. *)
Definition three_four : lineup := int_lineup 3 4 0 0 179 ∅.
Definition yaw_minus_179 : lineup := int_lineup 0 0 0 0 (-179) ∅.



(** Values with the wrong number of components. *)
Definition short_position : lineup :=
  {[ "position" := VList [VInt 0; VInt 0];
     "viewangles" := VList [VInt 0; VInt 0; VInt 90] ]}.
Definition long_position : lineup :=
  {[ "position" := VList [VInt 3; VInt 4; VInt 0; VStr "up"];
     "viewangles" := VList [VInt 0; VInt 0] ]}.
Definition short_viewangles : lineup :=
  {[ "position" := VList [VInt 0; VInt 0; VInt 0];
     "viewangles" := VList [VInt 0] ]}.

(** [{"position": [0, 0, 0], "viewangles": [1e19, 0]}] *)
Definition pitch_1e19 : lineup :=
  {[ "position" := VList [VInt 0; VInt 0; VInt 0];
     "viewangles" := VList [VFloat 1e19; VInt 0] ]}.

End Py.

(** ** Definitions that follow the specification *)

(** The centred reduction modulo 360: the representative of [d] in the
    interval (-180, 180]. *)
Definition centered_mod (d : Q) : Q :=
  d - 360 * inject_Z (Qceiling ((d - 180) / 360)).

(** A lineup built as the data model has it: a position of three numbers
    and viewangles of two. *)
Definition mk_lineup (x1 x2 x3 pitch yaw : Q) (rest : lineup) : lineup :=
  <["position" := VList [VNum x1; VNum x2; VNum x3]]>
    (<["viewangles" := VList [VNum pitch; VNum yaw]]> rest).

(** The fields of a lineup are as the data model has them. *)
Definition valid_lineup (r : lineup) : Prop :=
  ∃ x1 x2 x3 pitch yaw,
    r !! "position" = Some (VList [VNum x1; VNum x2; VNum x3]) ∧
    r !! "viewangles" = Some (VList [VNum pitch; VNum yaw]).

(** The merge as a function of the two sequences: the accumulated
    sequence [acc] after the candidates [cands]. *)
Fixpoint merge_list (max_pos max_angle : Q)
    (acc cands : list lineup) : outcome (list lineup) :=
  match cands with
  | [] => Ok acc
  | c :: cs =>
      dup ← scan max_pos max_angle c acc;
      merge_list max_pos max_angle (if dup : bool then acc else acc ++ [c]) cs
  end.

(** ** Auxiliary notions of the proofs *)

(** A natural number as a rational. *)
Definition Qnat (k : nat) : Q := inject_Z (Z.of_nat k).

(** What the two loops compute, whenever the fuel covers [|d| / 360]. *)
Definition normalized (d r : Q) : Prop :=
  ∃ k : Z, r == d - 360 * inject_Z k ∧ -180 <= r ∧ r <= 180 ∧
           (r == -180 → d <= -180) ∧ (r == 180 → 180 <= d) ∧
           (-180 <= d → d <= 180 → r = d).

(** ** Lineups used in the examples *)

(** [{"position": [0, 0, 0], "viewangles": [0, 0]}] and its neighbour at
    distance 1. *)
Definition at_origin : lineup := mk_lineup 0 0 0 0 0 ∅.
Definition at_one : lineup := mk_lineup 1 0 0 0 0 ∅.

(** Two lineups at distance 5 whose yaw angles, 179 and -179, are 2 apart. *)
Definition yaw_179 : lineup := mk_lineup 0 0 0 0 179 ∅.
Definition yaw_minus_179 : lineup := mk_lineup 3 4 0 0 (-179) ∅.

(** A lineup without viewangles. *)
Definition no_viewangles : lineup :=
  {[ "position" := VList [VNum 0; VNum 0; VNum 0] ]}.

(** Lineups whose values have the wrong number of components. *)
Definition short_position : lineup :=
  {[ "position" := VList [VNum 0; VNum 0];
     "viewangles" := VList [VNum 0; VNum 0; VNum 90] ]}.
Definition short_viewangles : lineup :=
  {[ "position" := VList [VNum 0; VNum 0; VNum 0];
     "viewangles" := VList [VNum 0] ]}.

(** A store that holds an existing list and a batch. *)
Definition two_lists : heap :=
  {[ 1%positive := [at_origin]; 2%positive := [at_origin; at_one] ]}.

(** ** combine_json_files *)

(** What [file_data.items()] yields for a map name: a list of lineup
    dictionaries, or a value that is not a list. *)
Inductive map_value : Type :=
  | Lineups (lineups : list lineup)
  | NotAList (v : value).

(** A file of the folder, as the [try] block sees it: [Unreadable] when
    opening it, [json.load] or [file_data.items()] raises (the file is not
    JSON, or its top level is not an object), otherwise the items of the
    object in their order. *)
Inductive json_file : Type :=
  | Unreadable
  | FileData (items : list (string * map_value)).

(** The variables that [combine_json_files] updates while it runs. *)
Record run_state : Type := RunState {
  combined_data : gmap string (list lineup);
  total_lineups_processed : Z;
  total_lineups_added : Z;
  files_processed : Z
}.

Definition initial_state : run_state := RunState ∅ 0 0 0.

(** The body of [for map_name, lineups in file_data.items()], lines 148 to
    166.  An exception of [merge_lineups] leaves the count of processed
    lineups raised and the group initialised. *)
Definition process_map (max_pos max_angle : Q) (st : run_state)
    (map_name : string) (v : map_value) : run_state * outcome unit :=
  match v with
  | NotAList _ => (st, Ok ())
  | Lineups lineups =>
      let processed := (total_lineups_processed st + Z.of_nat (length lineups))%Z in
      let data :=
        match combined_data st !! map_name with
        | None => <[map_name := []]> (combined_data st)
        | Some _ => combined_data st
        end in
      let existing := default [] (data !! map_name) in
      let original_count := Z.of_nat (length existing) in
      match merge max_pos max_angle existing lineups with
      | Ok merged =>
          let added_this_map := (Z.of_nat (length merged) - original_count)%Z in
          (RunState (<[map_name := merged]> data) processed
                    (total_lineups_added st + added_this_map)
                    (files_processed st), Ok ())
      | Raise e =>
          (RunState data processed (total_lineups_added st) (files_processed st),
           Raise e)
      end
  end.

(** The loop over the items of one file, up to the first exception. *)
Fixpoint process_items (max_pos max_angle : Q) (st : run_state)
    (items : list (string * map_value)) : run_state * outcome unit :=
  match items with
  | [] => (st, Ok ())
  | (map_name, v) :: rest =>
      match process_map max_pos max_angle st map_name v with
      | (st', Ok _) => process_items max_pos max_angle st' rest
      | (st', Raise e) => (st', Raise e)
      end
  end.

(** One turn of [for json_file in json_files]: the [try] block and its
    handlers, which let the run go on with the next file. *)
Definition process_file (max_pos max_angle : Q) (st : run_state)
    (f : json_file) : run_state :=
  match f with
  | Unreadable => st
  | FileData items =>
      match process_items max_pos max_angle st items with
      | (st', Ok _) =>
          RunState (combined_data st') (total_lineups_processed st')
                   (total_lineups_added st') (files_processed st' + 1)
      | (st', Raise _) => st'
      end
  end.

Definition process_files (max_pos max_angle : Q) (st : run_state)
    (json_files : list json_file) : run_state :=
  foldl (process_file max_pos max_angle) st json_files.

(** [{m: l for m, l in combined_data.items() if l}] *)
Definition remove_empty_maps (data : gmap string (list lineup))
    : gmap string (list lineup) :=
  filter (λ kv, (0 < length kv.2)%nat) data.

(** What a run hands over: the object passed to [json.dump] (with
    [sort_keys], so the order of its keys is that of the names) and the
    statistics it prints.  A failure of the write itself is left out. *)
Record report : Type := Report {
  saved : gmap string (list lineup);
  stat_processed : Z;
  stat_added : Z;
  stat_duplicates_removed : Z;
  stat_maps_with_lineups : Z;
  stat_files_processed : Z;
  stat_empty_maps_removed : Z
}.

(** [locs_folder] is [None] when the folder does not exist: the function
    returns before it writes anything.  Otherwise it holds the files in the
    order in which [glob] lists them. *)
Definition combine_json_files (max_pos max_angle : Q)
    (locs_folder : option (list json_file)) : option report :=
  match locs_folder with
  | None => None
  | Some json_files =>
      let st := process_files max_pos max_angle initial_state json_files in
      let maps_before_cleanup := Z.of_nat (size (combined_data st)) in
      let data := remove_empty_maps (combined_data st) in
      let maps_after_cleanup := Z.of_nat (size data) in
      Some (Report data (total_lineups_processed st) (total_lineups_added st)
                   (total_lineups_processed st - total_lineups_added st)
                   (Z.of_nat (size data)) (files_processed st)
                   (maps_before_cleanup - maps_after_cleanup))
  end.

(** ** Notions of the further properties *)



(** The lineups that a file holds under the name [k], its lists for that
    name one after the other. *)
Fixpoint batch_for (k : string) (items : list (string * map_value))
    : list lineup :=
  match items with
  | [] => []
  | (k', Lineups C) :: rest =>
      if decide (k' = k) then C ++ batch_for k rest else batch_for k rest
  | (_, NotAList _) :: rest => batch_for k rest
  end.

(** The group [k] holds, for each candidate of [C], a lineup that the
    candidate is similar to. *)
Definition covered (max_pos max_angle : Q) (data : gmap string (list lineup))
    (k : string) (C : list lineup) : Prop :=
  ∃ l, data !! k = Some l ∧ Forall (λ c, scan max_pos max_angle c l = Ok true) C.

(** The number of lineups in all the groups of [data]. *)
Definition total_size (data : gmap string (list lineup)) : Z :=
  Z.of_nat (sum_list_with (λ kv : string * list lineup, length kv.2)
              (map_to_list data)).

(** Every group of [st'] extends the group of the same name in [st]. *)
Definition grows (st st' : run_state) : Prop :=
  ∀ k l, combined_data st !! k = Some l →
         ∃ l', combined_data st' !! k = Some (l ++ l').

(** The counters agree with the groups. *)
Definition counters_ok (st : run_state) : Prop :=
  total_lineups_added st = total_size (combined_data st) ∧
  (total_lineups_added st ≤ total_lineups_processed st)%Z.

(** Files for the examples. *)
Definition file_one : json_file :=
  FileData [("de_dust2", Lineups [at_origin; at_one]); ("notes", NotAList (VStr "x"))].
Definition file_bad : json_file :=
  FileData [("de_mirage", Lineups [yaw_179]);
            ("de_dust2", Lineups [short_viewangles]);
            ("de_inferno", Lineups [at_one])].

(** * Properties *)

(** ** Comparisons and the symbolic square root *)

Lemma Qgtb_true x y : Qgtb x y = true ↔ y < x.
Proof.
  unfold Qgtb. rewrite negb_true_iff, <- not_true_iff_false, Qle_bool_iff.
  split; [apply Qnot_le_lt | apply Qlt_not_le].
Qed.

Lemma Qgtb_false x y : Qgtb x y = false ↔ x <= y.
Proof. unfold Qgtb. by rewrite negb_false_iff, Qle_bool_iff. Qed.

Lemma Qltb_true x y : Qltb x y = true ↔ x < y.
Proof. apply Qgtb_true. Qed.

Lemma Qltb_false x y : Qltb x y = false ↔ y <= x.
Proof. apply Qgtb_false. Qed.

Lemma Qsquare d : d ^ 2 == d * d.
Proof. reflexivity. Qed.

Lemma Qsquare_nonneg d : 0 <= d ^ 2.
Proof. rewrite Qsquare. nra. Qed.

Lemma root_leb_true s m :
  root_leb (Sqrt s) m = true ↔ 0 <= m ∧ s <= m * m.
Proof.
  unfold root_leb. by rewrite andb_true_iff, !Qle_bool_iff.
Qed.



(** The decision on squares is the comparison of the real square root. *)
Lemma root_leb_sqrt s m :
  0 <= s → root_leb (Sqrt s) m = true ↔ (sqrt (Q2R s) <= Q2R m)%R.
Proof.
  intros Hs. rewrite root_leb_true.
  assert (0 <= Q2R s)%R as Hs' by (replace 0%R with (Q2R 0) by lra; by apply Qle_Rle).
  split.
  - intros [H0 Hsm].
    assert (0 <= Q2R m)%R as Hm' by (replace 0%R with (Q2R 0) by lra; by apply Qle_Rle).
    apply Qle_Rle in Hsm. rewrite Q2R_mult in Hsm.
    rewrite <- (sqrt_square (Q2R m)) by done.
    by apply sqrt_le_1_alt.
  - intros Hle.
    pose proof (sqrt_pos (Q2R s)) as Hp.
    assert (0 <= Q2R m)%R as Hm' by lra.
    split.
    + apply Rle_Qle. lra.
    + apply Rle_Qle. rewrite Q2R_mult.
      rewrite <- (sqrt_sqrt (Q2R s)) by done.
      by apply Rmult_le_compat.
Qed.

(** ** The normalisation loops *)

Lemma Qnat_S k : Qnat (S k) == Qnat k + 1.
Proof. unfold Qnat. by rewrite Nat2Z.inj_succ, <- Z.add_1_r, inject_Z_plus. Qed.

Lemma Qnat_nonneg k : 0 <= Qnat k.
Proof. unfold Qnat. change 0 with (inject_Z 0). rewrite <- Zle_Qle. lia. Qed.

Lemma Qnat_le j k : (j ≤ k)%nat → Qnat j <= Qnat k.
Proof. intros H. unfold Qnat. rewrite <- Zle_Qle. lia. Qed.

Lemma while_gt_stop fuel d : d <= 180 → while_gt fuel d = Some d.
Proof.
  intros H. apply Qgtb_false in H. destruct fuel; simpl; by rewrite H.
Qed.

Lemma while_gt_step fuel d :
  180 < d → while_gt (S fuel) d = while_gt fuel (d - 360).
Proof. intros H. apply Qgtb_true in H. simpl. by rewrite H. Qed.

Lemma while_lt_stop fuel d : -180 <= d → while_lt fuel d = Some d.
Proof.
  intros H. apply Qltb_false in H. destruct fuel; simpl; by rewrite H.
Qed.

Lemma while_lt_step fuel d :
  d < -180 → while_lt (S fuel) d = while_lt fuel (d + 360).
Proof. intros H. apply Qltb_true in H. simpl. by rewrite H. Qed.

(** With enough fuel the first loop ends, after [k] subtractions. *)
Lemma while_gt_run fuel d :
  d - 180 <= 360 * Qnat fuel →
  ∃ r k, while_gt fuel d = Some r ∧ (k ≤ fuel)%nat ∧ r == d - 360 * Qnat k ∧
         r <= 180 ∧ (180 < d → -180 < r) ∧ (d <= 180 → r = d).
Proof.
  revert d. induction fuel as [|fuel IH]; intros d Hd.
  - assert (d <= 180) as Hle by (change (Qnat 0) with 0 in Hd; lra).
    exists d, 0%nat. rewrite while_gt_stop by done.
    change (Qnat 0) with 0. repeat split; try done; lra.
  - destruct (Qlt_le_dec 180 d) as [Hgt|Hle].
    + rewrite while_gt_step by done.
      rewrite Qnat_S in Hd.
      destruct (IH (d - 360)) as (r & k & Hr & Hk & Heq & Hr180 & Hlow & Hsame);
        [lra|].
      exists r, (S k). rewrite Qnat_S.
      repeat split; [done | lia | lra | done | | lra].
      intros _. destruct (Qlt_le_dec 180 (d - 360)) as [H1|H1].
      * by apply Hlow.
      * rewrite (Hsame H1). lra.
    + exists d, 0%nat. rewrite while_gt_stop by done.
      change (Qnat 0) with 0. repeat split; try done; try lia; lra.
Qed.

(** With enough fuel the second loop ends, after [k] additions. *)
Lemma while_lt_run fuel d :
  -180 - d <= 360 * Qnat fuel →
  ∃ r k, while_lt fuel d = Some r ∧ (k ≤ fuel)%nat ∧ r == d + 360 * Qnat k ∧
         -180 <= r ∧ (d < -180 → r < 180) ∧ (-180 <= d → r = d).
Proof.
  revert d. induction fuel as [|fuel IH]; intros d Hd.
  - assert (-180 <= d) as Hle by (change (Qnat 0) with 0 in Hd; lra).
    exists d, 0%nat. rewrite while_lt_stop by done.
    change (Qnat 0) with 0. repeat split; try done; lra.
  - destruct (Qlt_le_dec d (-180)) as [Hlt|Hle].
    + rewrite while_lt_step by done.
      rewrite Qnat_S in Hd.
      destruct (IH (d + 360)) as (r & k & Hr & Hk & Heq & Hr180 & Hup & Hsame);
        [lra|].
      exists r, (S k). rewrite Qnat_S.
      repeat split; [done | lia | lra | done | | lra].
      intros _. destruct (Qlt_le_dec (d + 360) (-180)) as [H1|H1].
      * by apply Hup.
      * rewrite (Hsame H1). lra.
    + exists d, 0%nat. rewrite while_lt_stop by done.
      change (Qnat 0) with 0. repeat split; try done; try lia; lra.
Qed.

Lemma while_gt_more fuel fuel' d r :
  while_gt fuel d = Some r → (fuel ≤ fuel')%nat → while_gt fuel' d = Some r.
Proof.
  revert fuel' d. induction fuel as [|fuel IH]; intros fuel' d Hr Hle.
  - simpl in Hr. destruct (Qgtb d 180) eqn:Hc; [done|].
    injection Hr as <-. by apply while_gt_stop, Qgtb_false.
  - destruct fuel' as [|fuel']; [lia|]. simpl in *.
    destruct (Qgtb d 180); [|done]. apply IH; [done | lia].
Qed.

Lemma while_lt_more fuel fuel' d r :
  while_lt fuel d = Some r → (fuel ≤ fuel')%nat → while_lt fuel' d = Some r.
Proof.
  revert fuel' d. induction fuel as [|fuel IH]; intros fuel' d Hr Hle.
  - simpl in Hr. destruct (Qltb d (-180)) eqn:Hc; [done|].
    injection Hr as <-. by apply while_lt_stop, Qltb_false.
  - destruct fuel' as [|fuel']; [lia|]. simpl in *.
    destruct (Qltb d (-180)); [|done]. apply IH; [done | lia].
Qed.

Lemma normalize_angle_fuel_more fuel fuel' d r :
  normalize_angle_fuel fuel d = Some r → (fuel ≤ fuel')%nat →
  normalize_angle_fuel fuel' d = Some r.
Proof.
  unfold normalize_angle_fuel. intros Hr Hle.
  destruct (while_gt fuel d) as [r1|] eqn:H1; [|done]. simpl in Hr.
  rewrite (while_gt_more _ _ _ _ H1 Hle). simpl.
  by apply (while_lt_more fuel).
Qed.

Lemma Qdiv_360 x : x == 360 * (x / 360).
Proof. field. Qed.

Lemma angle_fuel_bound d : Qabs d <= 360 * Qnat (angle_fuel d).
Proof.
  unfold angle_fuel, Qnat.
  pose proof (Qabs_nonneg d) as Hd.
  pose proof (Qdiv_360 (Qabs d)) as Hdiv.
  assert (0 <= Qabs d / 360) as H0 by lra.
  assert (0 <= Qceiling (Qabs d / 360))%Z as Hc.
  { change 0%Z with (Qceiling 0). by apply Qceiling_resp_le. }
  rewrite Z2Nat.id by done.
  pose proof (Qle_ceiling (Qabs d / 360)) as Hle. lra.
Qed.

Lemma normalize_angle_fuel_props d fuel :
  Qabs d <= 360 * Qnat fuel →
  ∃ r, normalize_angle_fuel fuel d = Some r ∧ normalized d r.
Proof.
  intros Hb.
  pose proof (Qle_Qabs d) as Habs1.
  pose proof (Qle_Qabs (-d)) as Habs2. rewrite Qabs_opp in Habs2.
  destruct (while_gt_run fuel d)
    as (r1 & k1 & Hr1 & _ & Heq1 & Hup1 & Hlow1 & Hsame1); [lra|].
  destruct (while_lt_run fuel r1)
    as (r2 & k2 & Hr2 & _ & Heq2 & Hlow2 & Hup2 & Hsame2).
  { destruct (Qlt_le_dec 180 d) as [H|H].
    - specialize (Hlow1 H). pose proof (Qnat_nonneg fuel). lra.
    - rewrite (Hsame1 H). lra. }
  exists r2. split.
  { unfold normalize_angle_fuel. by rewrite Hr1. }
  exists (Z.of_nat k1 - Z.of_nat k2)%Z.
  unfold Z.sub. rewrite inject_Z_plus, inject_Z_opp. fold (Qnat k1) (Qnat k2).
  split; [lra|]. split; [done|]. split; [|split; [|split]].
  - destruct (Qlt_le_dec r1 (-180)) as [H|H].
    + specialize (Hup2 H). lra.
    + by rewrite (Hsame2 H).
  - intros Hm. destruct (Qlt_le_dec 180 d) as [H|H].
    + specialize (Hlow1 H). rewrite Hsame2 in Hm by lra. lra.
    + rewrite (Hsame1 H) in *.
      destruct (Qlt_le_dec d (-180)) as [H'|H']; [lra|].
      rewrite (Hsame2 H') in Hm. lra.
  - intros Hm. destruct (Qlt_le_dec 180 d) as [H|H]; [lra|].
    rewrite (Hsame1 H) in *.
    destruct (Qlt_le_dec d (-180)) as [H'|H'].
    + specialize (Hup2 H'). lra.
    + rewrite (Hsame2 H') in Hm. lra.
  - intros Hl Hu. rewrite (Hsame1 Hu) in *. by apply Hsame2.
Qed.

(** [normalize_angle] is the result of the loops for every fuel from
    [angle_fuel] on. *)
Lemma normalize_angle_run d fuel :
  (angle_fuel d ≤ fuel)%nat →
  normalize_angle_fuel fuel d = Some (normalize_angle d).
Proof.
  intros Hfuel.
  destruct (normalize_angle_fuel_props d (angle_fuel d)) as (r & Hr & _);
    [apply angle_fuel_bound|].
  unfold normalize_angle. rewrite Hr. simpl.
  by apply (normalize_angle_fuel_more (angle_fuel d)).
Qed.

Lemma normalize_angle_normalized d : normalized d (normalize_angle d).
Proof.
  destruct (normalize_angle_fuel_props d (angle_fuel d)) as (r & Hr & Hn);
    [apply angle_fuel_bound|].
  unfold normalize_angle. by rewrite Hr.
Qed.

(** ** The centred reduction of the specification *)

Lemma centered_mod_range d : -180 < centered_mod d ∧ centered_mod d <= 180.
Proof.
  unfold centered_mod. set (x := (d - 180) / 360).
  pose proof (Qle_ceiling x) as Hle. pose proof (Qceiling_lt x) as Hlt.
  unfold Z.sub in Hlt. rewrite inject_Z_plus, inject_Z_opp in Hlt.
  change (inject_Z 1) with 1 in Hlt.
  pose proof (Qdiv_360 (d - 180)) as Hx. fold x in Hx.
  split; lra.
Qed.

Lemma centered_mod_proper d d' : d == d' → centered_mod d == centered_mod d'.
Proof.
  intros Hd. unfold centered_mod.
  assert (Qceiling ((d - 180) / 360) = Qceiling ((d' - 180) / 360)) as ->
    by (apply Qceiling_comp; by rewrite Hd).
  by rewrite Hd.
Qed.

(** Two representatives of [d] modulo 360 in (-180, 180] are equal. *)
Lemma representative_unique d r1 r2 (k1 k2 : Z) :
  r1 == d - 360 * inject_Z k1 → r2 == d - 360 * inject_Z k2 →
  -180 < r1 → r1 <= 180 → -180 < r2 → r2 <= 180 → r1 == r2.
Proof.
  intros H1 H2 Hl1 Hu1 Hl2 Hu2.
  assert (k1 = k2) as ->; [|lra].
  assert (inject_Z (k1 - k2) < inject_Z 1) as Ha.
  { unfold Z.sub. rewrite inject_Z_plus, inject_Z_opp. change (inject_Z 1) with 1. lra. }
  assert (inject_Z (-1) < inject_Z (k1 - k2)) as Hb.
  { unfold Z.sub. rewrite inject_Z_plus, inject_Z_opp. change (inject_Z (-1)) with (-1). lra. }
  rewrite <- Zlt_Qlt in Ha, Hb. lia.
Qed.

Lemma centered_mod_unique d r (k : Z) :
  r == d - 360 * inject_Z k → -180 < r → r <= 180 → centered_mod d == r.
Proof.
  intros Hr Hl Hu. destruct (centered_mod_range d) as [Hl' Hu'].
  by apply (representative_unique d _ _ (Qceiling ((d - 180) / 360)) k).
Qed.

(** The loops against the centred reduction: the same value, except that
    the loops leave -180 where the reduction gives 180. *)
Lemma normalize_angle_centered d :
  normalize_angle d == centered_mod d ∨
  (normalize_angle d == -180 ∧ centered_mod d == 180 ∧ d <= -180).
Proof.
  destruct (normalize_angle_normalized d) as (k & Heq & Hl & Hu & Hm & _).
  destruct (Qlt_le_dec (-180) (normalize_angle d)) as [H|H].
  - left. symmetry. by apply (centered_mod_unique d _ k).
  - right. assert (normalize_angle d == -180) as He by lra.
    split; [done|]. split; [|by apply Hm].
    apply (centered_mod_unique d _ (k - 1)); [|lra..].
    unfold Z.sub. rewrite inject_Z_plus, inject_Z_opp. change (inject_Z 1) with 1. lra.
Qed.

Lemma Qabs_normalize_centered d :
  Qabs (normalize_angle d) == Qabs (centered_mod d).
Proof.
  destruct (normalize_angle_centered d) as [H|(H1 & H2 & _)].
  - by rewrite H.
  - by rewrite H1, H2.
Qed.


Lemma Qabs_normalize_proper d d' :
  d == d' → Qabs (normalize_angle d) == Qabs (normalize_angle d').
Proof.
  intros Hd. rewrite !Qabs_normalize_centered. by rewrite (centered_mod_proper _ _ Hd).
Qed.


Lemma Qabs_normalize_bound d :
  0 <= Qabs (normalize_angle d) ∧ Qabs (normalize_angle d) <= 180.
Proof.
  destruct (normalize_angle_normalized d) as (k & _ & Hl & Hu & _).
  split; [apply Qabs_nonneg|]. apply Qabs_Qle_condition. split; lra.
Qed.

(** The second fold of the yaw difference never fires. *)
Lemma yaw_fold_idle d : Qgtb (Qabs (normalize_angle d)) 180 = false.
Proof. apply Qgtb_false, Qabs_normalize_bound. Qed.

(** ** Results of the similarity test *)

Lemma bind_Ok {A B} (r : outcome A) (k : A → outcome B) (b : B) :
  r ≫= k = Ok b ↔ ∃ a, r = Ok a ∧ k a = Ok b.
Proof.
  destruct r as [a|e]; simpl; split.
  - intros H. by exists a.
  - by intros (a' & [= <-] & H).
  - done.
  - by intros (a' & [=] & _).
Qed.

Ltac bind_inv H :=
  repeat (let a := fresh "v" in let E := fresh "E" in
          apply bind_Ok in H as (a & E & H)).





Lemma sum_squares_nonneg pairs acc s :
  0 <= acc → sum_squares acc pairs = Ok s → 0 <= s.
Proof.
  revert acc. induction pairs as [|[a b] pairs IH]; intros acc Hacc H; simpl in *.
  - by injection H as <-.
  - bind_inv H. apply (IH (acc + v ^ 2)); [|done]. rewrite Qsquare. nra.
Qed.

Lemma calculate_distance_nonneg pos1 pos2 s :
  calculate_distance pos1 pos2 = Ok (Sqrt s) → 0 <= s.
Proof.
  unfold calculate_distance. intros H. bind_inv H. injection H as <-.
  apply (sum_squares_nonneg (py_zip v v0) 0); [apply Qle_refl | done].
Qed.

(** The value of [calculate_angle_difference], with the fold left out. *)
Lemma calculate_angle_difference_Ok angle1 angle2 t :
  calculate_angle_difference angle1 angle2 = Ok (Sqrt t) ↔
  ∃ p1 p2 dp y1 y2 dy,
    py_index angle1 0 = Ok p1 ∧ py_index angle2 0 = Ok p2 ∧
    py_sub p1 p2 = Ok dp ∧
    py_index angle1 1 = Ok y1 ∧ py_index angle2 1 = Ok y2 ∧
    py_sub y1 y2 = Ok dy ∧
    t = Qabs (normalize_angle dp) ^ 2 + Qabs (normalize_angle dy) ^ 2.
Proof.
  unfold calculate_angle_difference. split.
  - intros H. bind_inv H. rewrite yaw_fold_idle in H. injection H as <-.
    by exists v, v0, v1, v2, v3, v4.
  - intros (p1 & p2 & dp & y1 & y2 & dy & -> & -> & Hp & -> & -> & Hy & ->).
    simpl. rewrite Hp. simpl. rewrite Hy. simpl. by rewrite yaw_fold_idle.
Qed.


Lemma calculate_angle_difference_nonneg angle1 angle2 t :
  calculate_angle_difference angle1 angle2 = Ok (Sqrt t) → 0 <= t.
Proof.
  rewrite calculate_angle_difference_Ok.
  intros (p1 & p2 & dp & y1 & y2 & dy & _ & _ & _ & _ & _ & _ & ->).
  rewrite !Qsquare. nra.
Qed.

(** When [is_similar_lineup] returns, either a field is missing and the
    answer is [False], or both distances were computed. *)
Lemma is_similar_lineup_Ok max_pos max_angle lineup1 lineup2 b :
  is_similar_lineup max_pos max_angle lineup1 lineup2 = Ok b ↔
  (b = false ∧
   (lineup1 !! "position" = None ∨ lineup2 !! "position" = None ∨
    lineup1 !! "viewangles" = None ∨ lineup2 !! "viewangles" = None)) ∨
  (∃ pos1 pos2 va1 va2 s t,
     lineup1 !! "position" = Some pos1 ∧ lineup2 !! "position" = Some pos2 ∧
     lineup1 !! "viewangles" = Some va1 ∧ lineup2 !! "viewangles" = Some va2 ∧
     calculate_distance pos1 pos2 = Ok (Sqrt s) ∧
     calculate_angle_difference va1 va2 = Ok (Sqrt t) ∧
     b = root_leb (Sqrt s) max_pos && root_leb (Sqrt t) max_angle).
Proof.
  unfold is_similar_lineup. split.
  - intros H.
    destruct (lineup1 !! "position") as [pos1|]; [|injection H as <-; left; auto].
    destruct (lineup2 !! "position") as [pos2|]; [|injection H as <-; left; auto].
    destruct (lineup1 !! "viewangles") as [va1|]; [|injection H as <-; left; auto].
    destruct (lineup2 !! "viewangles") as [va2|]; [|injection H as <-; left; auto].
    right. bind_inv H. injection H as <-.
    destruct v as [s], v0 as [t]. by exists pos1, pos2, va1, va2, s, t.
  - intros [[-> Hmissing]|H].
    + destruct Hmissing as [H|[H|[H|H]]]; rewrite H; repeat case_match; done.
    + destruct H as (pos1 & pos2 & va1 & va2 & s & t & H1 & H2 & H3 & H4 & Hd & Ha & Hb).
      by rewrite H1, H2, H3, H4, Hd, Ha, Hb.
Qed.

(** ** Missing fields, thresholds, symmetry *)

(** C3.  A lineup without a [position] or without a [viewangles] field is
    similar to nothing: whenever one of the two lineups lacks one of the two
    fields, [is_similar_lineup] returns [False], whatever the thresholds and
    whatever else the lineups hold, also when both are the same lineup. *)
Theorem missing_field_never_similar (max_pos max_angle : Q) (a b : lineup) :
  a !! "position" = None ∨ b !! "position" = None ∨
  a !! "viewangles" = None ∨ b !! "viewangles" = None →
  is_similar_lineup max_pos max_angle a b = Ok false.
Proof.
  intros H. apply is_similar_lineup_Ok. by left.
Qed.

(** A lineup that has a position but no viewangles, compared with itself. *)
Lemma missing_field_never_similar_witness :
  (no_viewangles !! "position" = None ∨ no_viewangles !! "position" = None ∨
   no_viewangles !! "viewangles" = None ∨ no_viewangles !! "viewangles" = None) ∧
  is_similar_lineup 10 5 no_viewangles no_viewangles = Ok false.
Proof.
  assert (no_viewangles !! "position" = None ∨ no_viewangles !! "position" = None ∨
          no_viewangles !! "viewangles" = None ∨
          no_viewangles !! "viewangles" = None) as H
    by (right; right; left; reflexivity).
  exact (conj H (missing_field_never_similar 10 5 no_viewangles no_viewangles H)).
Defined.





(** At the boundary: yaw 180 against 0 and 0 against 180 (raw differences
    180 and -180) agree, on both sides of the threshold. *)
Example symmetric_at_boundary :
  is_similar_lineup 10 180 (mk_lineup 0 0 0 0 180 ∅) at_origin = Ok true ∧
  is_similar_lineup 10 180 at_origin (mk_lineup 0 0 0 0 180 ∅) = Ok true ∧
  is_similar_lineup 10 179 (mk_lineup 0 0 0 0 180 ∅) at_origin = Ok false ∧
  is_similar_lineup 10 179 at_origin (mk_lineup 0 0 0 0 180 ∅) = Ok false.
Proof. vm_compute. done. Qed.

(** ** The value of the test on lineups of the data model *)

(** The value of [is_similar_lineup] on two lineups of the data model. *)
Lemma is_similar_lineup_valid max_pos max_angle x1 x2 x3 p1 w1 y1 y2 y3 p2 w2
    (a b : lineup) :
  a !! "position" = Some (VList [VNum x1; VNum x2; VNum x3]) →
  a !! "viewangles" = Some (VList [VNum p1; VNum w1]) →
  b !! "position" = Some (VList [VNum y1; VNum y2; VNum y3]) →
  b !! "viewangles" = Some (VList [VNum p2; VNum w2]) →
  is_similar_lineup max_pos max_angle a b =
    Ok (root_leb (Sqrt (0 + (x1 - y1) ^ 2 + (x2 - y2) ^ 2 + (x3 - y3) ^ 2)) max_pos
        && root_leb (Sqrt (Qabs (normalize_angle (p1 - p2)) ^ 2
                           + Qabs (normalize_angle (w1 - w2)) ^ 2)) max_angle).
Proof.
  intros Ha1 Ha2 Hb1 Hb2. apply is_similar_lineup_Ok. right.
  eexists _, _, _, _, _, _. repeat split; try eassumption.
  - reflexivity.
  - apply calculate_angle_difference_Ok.
    by eexists (VNum p1), (VNum p2), _, (VNum w1), (VNum w2), _.
Qed.

(** Both thresholds met with equality (distance 5, angle 2): similar. *)
Example thresholds_inclusive :
  is_similar_lineup 5 2 yaw_179 yaw_minus_179 = Ok true.
Proof. vm_compute. reflexivity. Qed.

(** ** The scan for a duplicate *)

Section Scan.
Variables max_pos max_angle : Q.

Local Abbreviation similar := (is_similar_lineup max_pos max_angle).
Local Abbreviation scan := (scan max_pos max_angle).
Local Abbreviation merge_list := (merge_list max_pos max_angle).

Lemma scan_false_iff c items :
  scan c items = Ok false ↔ Forall (λ x, similar c x = Ok false) items.
Proof.
  induction items as [|x items IH]; simpl.
  - split; [by constructor | done].
  - rewrite Forall_cons, <- IH.
    destruct (similar c x) as [[]|e]; simpl; split; try done; by intros [? ?].
Qed.

(** The scan answers [True] at the first similar item: the items before it
    were compared and found different, the items after it are not looked
    at. *)
Lemma scan_true_iff c items :
  scan c items = Ok true ↔
  ∃ before x after, items = before ++ x :: after ∧
    Forall (λ y, similar c y = Ok false) before ∧ similar c x = Ok true.
Proof.
  induction items as [|x items IH]; simpl.
  - split; [done|]. intros (before & y & after & H & _). by destruct before.
  - destruct (similar c x) as [[]|e] eqn:Hx; simpl.
    + split; [|done]. intros _. by exists [], x, items.
    + rewrite IH. split.
      * intros (before & y & after & -> & Hf & Hy).
        exists (x :: before), y, after. split; [done|]. split; [by constructor | done].
      * intros (before & y & after & Heq & Hf & Hy).
        destruct before as [|z before]; simpl in Heq; injection Heq as <- ->; [congruence|].
        apply Forall_cons in Hf as [_ Hf]. by exists before, y, after.
    + split; [done|]. intros (before & y & after & Heq & Hf & Hy).
      destruct before as [|z before]; simpl in Heq; injection Heq as <- ->; [congruence|].
      apply Forall_cons in Hf as [Hz _]. congruence.
Qed.

Lemma scan_app_true c l l' : scan c l = Ok true → scan c (l ++ l') = Ok true.
Proof.
  rewrite !scan_true_iff. intros (before & x & after & -> & Hf & Hx).
  exists before, x, (after ++ l'). by rewrite <- app_assoc.
Qed.

Lemma scan_app_false c l l' : scan c l = Ok false → scan c (l ++ l') = scan c l'.
Proof.
  induction l as [|x l IH]; simpl; [done|].
  destruct (similar c x) as [[]|e]; simpl; try done.
Qed.

(** ** The merge as a function of the sequences *)

Lemma merge_list_app acc cands R :
  merge_list acc cands = Ok R → ∃ kept, R = acc ++ kept ∧ sublist kept cands.
Proof.
  revert acc. induction cands as [|c cs IH]; intros acc H; simpl in H.
  - injection H as <-. exists []. by rewrite app_nil_r.
  - apply bind_Ok in H as (dup & Hdup & H).
    apply IH in H as (kept & -> & Hsub). destruct dup.
    + exists kept. split; [done|]. by apply sublist_cons.
    + exists (c :: kept). rewrite <- app_assoc. split; [done|]. by apply sublist_skip.
Qed.

(** Every kept candidate differs from all the items before it, and every
    candidate has a similar item in the result or is itself kept. *)
Lemma merge_list_kept acc cands R :
  merge_list acc cands = Ok R →
  (∀ i k, (length acc ≤ i)%nat → R !! i = Some k → scan k (take i R) = Ok false) ∧
  (∀ c, c ∈ cands → scan c R = Ok true ∨ c ∈ drop (length acc) R).
Proof.
  revert acc. induction cands as [|c cs IH]; intros acc H; simpl in H.
  - injection H as <-. split.
    + intros i k Hi Hk. apply lookup_lt_Some in Hk. lia.
    + intros c Hc. by apply elem_of_nil in Hc.
  - apply bind_Ok in H as (dup & Hdup & H).
    destruct (merge_list_app _ _ _ H) as (kept & HR & _).
    destruct (IH _ H) as [IH1 IH2]. destruct dup.
    + split; [done|]. intros c' [->|Hc']%elem_of_cons; [|by apply IH2].
      left. rewrite HR. by apply scan_app_true.
    + rewrite length_app in IH1, IH2. simpl in *. split.
      * intros i k Hi Hk. destruct (decide (i = length acc)) as [->|Hne].
        -- rewrite HR, <- app_assoc in Hk |- *.
           rewrite lookup_app_r in Hk by lia. rewrite Nat.sub_diag in Hk.
           injection Hk as <-. by rewrite take_app_length.
        -- apply IH1; [lia | done].
      * intros c' [->|Hc']%elem_of_cons.
        -- right. rewrite HR, <- app_assoc, drop_app_length. by left.
        -- destruct (IH2 _ Hc') as [Ht|Hd]; [by left|]. right.
           rewrite HR, <- app_assoc, drop_app_length.
           rewrite HR, <- app_assoc in Hd.
           replace (length acc + 1)%nat with (length (acc ++ [c])) in Hd
             by (rewrite length_app; simpl; lia).
           rewrite app_assoc, drop_app_length in Hd. by right.
Qed.

(** Replaying the candidates over the result of a merge keeps none of
    them, as long as each candidate is similar to itself. *)
Lemma merge_list_covers acc cands R :
  Forall (λ c, similar c c = Ok true) cands →
  merge_list acc cands = Ok R →
  Forall (λ c, scan c R = Ok true) cands.
Proof.
  revert acc. induction cands as [|c cs IH]; intros acc Hself H; [by constructor|].
  simpl in H. apply Forall_cons in Hself as [Hc Hself].
  apply bind_Ok in H as (dup & Hdup & H).
  constructor; [|by apply (IH _ Hself H)].
  destruct (merge_list_app _ _ _ H) as (kept & -> & _). destruct dup.
  - by apply scan_app_true.
  - apply scan_app_true. rewrite scan_app_false by done. simpl. by rewrite Hc.
Qed.

Lemma merge_list_all_duplicates acc cands :
  Forall (λ c, scan c acc = Ok true) cands → merge_list acc cands = Ok acc.
Proof.
  induction 1 as [|c cs Hc _ IH]; simpl; [done|]. by rewrite Hc.
Qed.

Lemma merge_list_replay acc cands R :
  Forall (λ c, similar c c = Ok true) cands →
  merge_list acc cands = Ok R → merge_list R cands = Ok R.
Proof.
  intros Hself H. by apply merge_list_all_duplicates, (merge_list_covers acc).
Qed.

End Scan.

Lemma merge_list_concat p a E C1 C2 :
  merge_list p a E (C1 ++ C2) = (R ← merge_list p a E C1; merge_list p a R C2).
Proof.
  revert E. induction C1 as [|c cs IH]; intros E; simpl; [done|].
  destruct (scan p a c E) as [dup|e]; simpl; [|done]. apply IH.
Qed.

(** The scan returns when each of its comparisons does. *)
Lemma scan_total p a c items :
  (∀ x, x ∈ items → ∃ b, is_similar_lineup p a c x = Ok b) →
  ∃ b, scan p a c items = Ok b.
Proof.
  induction items as [|x items IH]; intros H; simpl; [by eexists|].
  destruct (H x) as [[] ->]; [by left | simpl; by eexists |]. simpl.
  apply IH. intros y Hy. apply H. by right.
Qed.

(** The merge returns when every comparison of a candidate with an
    existing lineup or with a candidate does. *)
Lemma merge_list_total p a acc cands :
  (∀ c x, c ∈ cands → x ∈ acc ++ cands → ∃ b, is_similar_lineup p a c x = Ok b) →
  ∃ R, merge_list p a acc cands = Ok R.
Proof.
  revert acc. induction cands as [|c cs IH]; intros acc H; simpl; [by eexists|].
  destruct (scan_total p a c acc) as [dup ->].
  { intros x Hx. apply H; [by left|]. apply elem_of_app. by left. }
  simpl. apply IH. intros c' x Hc' Hx. apply H; [by right|].
  destruct dup.
  - apply elem_of_app in Hx as [Hx|Hx]; apply elem_of_app; [by left|].
    right. by right.
  - rewrite <- app_assoc in Hx. done.
Qed.

(** The fate of one candidate: it is appended exactly when the scan of
    the sequence accumulated before it finds no similar item. *)
Lemma merge_list_step p a E C1 c C2 kept :
  merge_list p a E (C1 ++ c :: C2) = Ok (E ++ kept) →
  ∃ kept1 dup rest,
    merge_list p a E C1 = Ok (E ++ kept1) ∧
    scan p a c (E ++ kept1) = Ok dup ∧
    kept = kept1 ++ (if dup : bool then [] else [c]) ++ rest ∧
    sublist kept1 C1 ∧ sublist rest C2.
Proof.
  rewrite merge_list_concat. intros H.
  apply bind_Ok in H as (R1 & H1 & H).
  destruct (merge_list_app _ _ _ _ _ H1) as (kept1 & -> & Hsub1).
  simpl in H. apply bind_Ok in H as (dup & Hdup & H).
  destruct (merge_list_app _ _ _ _ _ H) as (rest & Heq & Hsub2).
  exists kept1, dup, rest. repeat split; try done.
  destruct dup.
  - rewrite <- app_assoc in Heq. by apply app_inv_head in Heq.
  - rewrite <- !app_assoc in Heq. by apply app_inv_head in Heq.
Qed.

(** ** The merge on the store *)

Lemma list_read_insert (h : heap) l xs : list_read l (<[l := xs]> h) = xs.
Proof. unfold list_read. by rewrite lookup_insert_eq. Qed.

Lemma list_read_Some (h : heap) l xs : h !! l = Some xs → list_read l h = xs.
Proof. unfold list_read. by intros ->. Qed.

(** The outer loop writes to the list [result] only, and what it leaves
    there on a normal exit is the sequence [merge_list] computes. *)
Lemma merge_loop_spec p a result cands (h : heap) acc :
  h !! result = Some acc →
  ∃ final,
    merge_loop p a result cands h
      = (<[result := final]> h, (λ _, ()) <$> merge_list p a acc cands) ∧
    (∀ R, merge_list p a acc cands = Ok R → final = R).
Proof.
  revert h acc. induction cands as [|c cs IH]; intros h acc Hacc; simpl.
  - exists acc. split; [by rewrite insert_id | by intros R [= <-]].
  - rewrite (list_read_Some _ _ _ Hacc).
    destruct (scan p a c acc) as [dup|e] eqn:Hscan; simpl.
    + destruct dup.
      * by apply IH.
      * unfold list_append. rewrite (list_read_Some _ _ _ Hacc).
        destruct (IH (<[result := acc ++ [c]]> h) (acc ++ [c]))
          as (final & Hrun & Hfinal); [by rewrite lookup_insert_eq|].
        exists final. by rewrite Hrun, insert_insert_eq.
    + exists acc. split; [by rewrite insert_id | done].
Qed.

(** [merge_lineups] allocates one list, the copy, and touches no other. *)
Lemma merge_lineups_spec p a existing new (h : heap) E C :
  h !! existing = Some E → h !! new = Some C →
  ∃ final,
    merge_lineups p a existing new h
      = (<[fresh (dom h) := final]> h,
         (λ _, fresh (dom h)) <$> merge_list p a E C) ∧
    (∀ R, merge_list p a E C = Ok R → final = R).
Proof.
  intros HE HC. unfold merge_lineups, list_copy.
  set (r := fresh (dom h)).
  assert (r ∉ dom h) as Hfresh by apply is_fresh.
  assert (r ≠ new) as Hnew.
  { intros ->. apply Hfresh, elem_of_dom. by exists C. }
  rewrite (list_read_Some _ _ _ HE).
  assert (list_read new (<[r := E]> h) = C) as ->.
  { apply list_read_Some. by rewrite lookup_insert_ne. }
  destruct (merge_loop_spec p a r C (<[r := E]> h) E) as (final & Hrun & Hfinal);
    [by rewrite lookup_insert_eq|].
  exists final. rewrite Hrun, insert_insert_eq.
  split; [|done]. by destruct (merge_list p a E C).
Qed.

(** On a store of its own, [merge_lineups] computes [merge_list]. *)
Lemma merge_merge_list p a E C : merge p a E C = merge_list p a E C.
Proof.
  unfold merge.
  destruct (merge_lineups_spec p a 1%positive 2%positive
              {[ 1%positive := E; 2%positive := C ]} E C)
    as (final & Hrun & Hfinal); [done..|].
  rewrite Hrun. destruct (merge_list p a E C) as [R|e]; simpl; [|done].
  by rewrite list_read_insert, (Hfinal R).
Qed.

(** A lineup of the data model is similar to itself under thresholds that
    are not negative. *)
Lemma self_similar p a (c : lineup) :
  0 <= p → 0 <= a → valid_lineup c → is_similar_lineup p a c c = Ok true.
Proof.
  intros Hp Ha (x1 & x2 & x3 & pitch & yaw & Hpos & Hva).
  rewrite (is_similar_lineup_valid _ _ _ _ _ _ _ _ _ _ _ _ _ _ Hpos Hva Hpos Hva).
  f_equal. apply andb_true_iff. rewrite !root_leb_true.
  assert (∀ q, Qabs (normalize_angle (q - q)) == 0) as Hzero.
  { intros q. by rewrite (Qabs_normalize_proper (q - q) 0) by ring. }
  repeat split; try done.
  - rewrite !Qsquare. nra.
  - rewrite !Hzero, !Qsquare. nra.
Qed.

(** ** The merge: scanning, replay, the store *)

(** C2.  Each candidate is checked against the sequence accumulated so
    far, candidates kept earlier in the same call included: the merge of
    [c :: cs] into [E] scans [E] for [c] and goes on with [E] or with
    [E ++ [c]].  The scan stops at the first similar item.  So the two
    lineups at distance 1 merge into one under [max_pos = 10] and stay two
    under [max_pos = 0.5]. *)
Theorem merge_scans_accumulated_result :
  (∀ p a E c cs,
     merge p a E (c :: cs) =
       (dup ← scan p a c E; merge p a (if dup : bool then E else E ++ [c]) cs)) ∧
  (∀ p a c items,
     scan p a c items = Ok true ↔
     ∃ before x after, items = before ++ x :: after ∧
       Forall (λ y, is_similar_lineup p a c y = Ok false) before ∧
       is_similar_lineup p a c x = Ok true) ∧
  (∃ R, merge 10 5 [] [at_origin; at_one] = Ok R ∧ length R = 1%nat) ∧
  (∃ R, merge 0.5 5 [] [at_origin; at_one] = Ok R ∧ length R = 2%nat).
Proof.
  split; [|split; [|split]].
  - intros p a E c cs. rewrite merge_merge_list. simpl.
    destruct (scan p a c E) as [dup|e]; simpl; [|done]. by rewrite merge_merge_list.
  - apply scan_true_iff.
  - exists [at_origin]. split; [vm_compute|]; reflexivity.
  - exists [at_origin; at_one]. split; [vm_compute|]; reflexivity.
Qed.

(** A candidate without viewangles is kept each time it is merged. *)
Lemma merge_replay_duplicates_missing_field :
  merge 10 5 [] [no_viewangles] = Ok [no_viewangles] ∧
  merge 10 5 [no_viewangles] [no_viewangles] = Ok [no_viewangles; no_viewangles] ∧
  ¬ (∀ R, merge 10 5 [] [no_viewangles] = Ok R →
          merge 10 5 R [no_viewangles] = Ok R).
Proof.
  assert (merge 10 5 [] [no_viewangles] = Ok [no_viewangles]) as H1
    by (vm_compute; reflexivity).
  assert (merge 10 5 [no_viewangles] [no_viewangles]
          = Ok [no_viewangles; no_viewangles]) as H2
    by (vm_compute; reflexivity).
  split; [done|]. split; [done|].
  intros H. specialize (H _ H1). rewrite H2 in H. discriminate H.
Qed.

(** C5, amended.  An empty batch changes nothing, whatever the inputs.
    Replaying a batch over the result of its merge adds nothing when the
    thresholds are not negative and every candidate holds a position and
    viewangles as the data model has them. *)
Theorem merge_idempotent (p a : Q) (E C : list lineup) :
  merge p a E [] = Ok E ∧
  (0 <= p → 0 <= a → Forall valid_lineup C →
   ∀ R, merge p a E C = Ok R → merge p a R C = Ok R).
Proof.
  split; [by rewrite merge_merge_list|].
  intros Hp Ha Hvalid R Hmerge. rewrite !merge_merge_list in *.
  apply (merge_list_replay p a E); [|done].
  eapply Forall_impl; [exact Hvalid|]. intros c Hc. by apply self_similar.
Qed.

Lemma merge_idempotent_witness :
  0 <= 10 ∧ 0 <= 5 ∧ Forall valid_lineup [at_origin; at_one] ∧
  merge 10 5 [] [at_origin; at_one] = Ok [at_origin] ∧
  merge 10 5 [] [] = Ok [] ∧
  merge 10 5 [at_origin] [at_origin; at_one] = Ok [at_origin].
Proof.
  assert (0 <= 10) as Hp by (vm_compute; discriminate).
  assert (0 <= 5) as Ha by (vm_compute; discriminate).
  assert (Forall valid_lineup [at_origin; at_one]) as Hv.
  { repeat constructor.
    - by exists 0, 0, 0, 0, 0.
    - by exists 1, 0, 0, 0, 0. }
  assert (merge 10 5 [] [at_origin; at_one] = Ok [at_origin]) as Hm
    by (vm_compute; reflexivity).
  destruct (merge_idempotent 10 5 [] [at_origin; at_one]) as [Hempty Hreplay].
  exact (conj Hp (conj Ha (conj Hv (conj Hm
           (conj Hempty (Hreplay Hp Ha Hv [at_origin] Hm)))))).
Defined.

(** C6.  [merge_lineups] leaves every list of the store as it was, the
    list [existing_lineups] among them, and returns a list whenever every
    comparison it makes returns a boolean.  The list it returns is a new one,
    and holds the existing lineups in their order followed by the kept
    candidates, a subsequence of the batch in its order.  Which candidates
    are kept is decided one by one, in the order of the batch: a candidate
    is kept exactly when the scan of the existing lineups and the candidates
    kept before it finds no similar item.  So each kept candidate differs
    from every item before it, and each candidate is kept or has a similar
    item in the result. *)
Theorem merge_lineups_new_list_in_order (p a : Q) (h : heap)
    (existing new : loc) (E C : list lineup) :
  h !! existing = Some E → h !! new = Some C →
  ∃ h' o, merge_lineups p a existing new h = (h', o) ∧
    (∀ l, l ∈ dom h → h' !! l = h !! l) ∧
    h' !! existing = Some E ∧
    o = (λ _, fresh (dom h)) <$> merge_list p a E C ∧
    ((∀ c x, c ∈ C → x ∈ E ++ C → ∃ b, is_similar_lineup p a c x = Ok b) →
     ∃ result, o = Ok result) ∧
    (∀ result, o = Ok result →
       (result ∉ dom h) ∧
       ∃ kept, h' !! result = Some (E ++ kept) ∧ sublist kept C ∧
         merge_list p a E C = Ok (E ++ kept) ∧
         (∀ C1 c C2, C = C1 ++ c :: C2 →
            ∃ kept1 dup rest,
              merge_list p a E C1 = Ok (E ++ kept1) ∧
              scan p a c (E ++ kept1) = Ok dup ∧
              kept = kept1 ++ (if dup : bool then [] else [c]) ++ rest ∧
              sublist kept1 C1 ∧ sublist rest C2) ∧
         (∀ i k, (length E ≤ i)%nat → (E ++ kept) !! i = Some k →
                 scan p a k (take i (E ++ kept)) = Ok false) ∧
         (∀ c, c ∈ C → scan p a c (E ++ kept) = Ok true ∨ c ∈ kept)).
Proof.
  intros HE HC.
  destruct (merge_lineups_spec p a existing new h E C HE HC)
    as (final & Hrun & Hfinal).
  pose proof (is_fresh (dom h)) as Hfresh.
  assert (∀ l, l ∈ dom h → <[fresh (dom h) := final]> h !! l = h !! l) as Hframe.
  { intros l Hl. apply lookup_insert_ne. by intros <-. }
  eexists _, _. split; [exact Hrun|]. split; [done|]. split.
  { rewrite Hframe; [done|]. apply elem_of_dom. by exists E. }
  split; [done|]. split.
  { intros Hall. destruct (merge_list_total p a E C Hall) as [R ->]. by eexists. }
  intros result Ho.
  destruct (merge_list p a E C) as [R|e] eqn:HR; simpl in Ho; [|done].
  injection Ho as <-. split; [done|].
  rewrite (Hfinal R eq_refl), lookup_insert_eq.
  destruct (merge_list_app _ _ _ _ _ HR) as (kept & -> & Hsub).
  destruct (merge_list_kept _ _ _ _ _ HR) as [Hk1 Hk2].
  exists kept. do 3 (split; [done|]). split.
  { intros C1 c C2 ->. by apply merge_list_step. }
  split; [done|].
  intros c Hc. destruct (Hk2 c Hc) as [?|Hd]; [by left|].
  right. by rewrite drop_app_length in Hd.
Qed.

Lemma merge_lineups_new_list_in_order_witness :
  two_lists !! 1%positive = Some [at_origin] ∧
  two_lists !! 2%positive = Some [at_origin; at_one] ∧
  merge_lineups 0.5 5 1 2 two_lists
    = (<[3%positive := [at_origin; at_one]]> two_lists, Ok 3%positive) ∧
  ∃ h' o, merge_lineups 0.5 5 1 2 two_lists = (h', o) ∧
    (∀ l, l ∈ dom two_lists → h' !! l = two_lists !! l) ∧
    h' !! 1%positive = Some [at_origin] ∧
    o = (λ _, fresh (dom two_lists))
          <$> merge_list 0.5 5 [at_origin] [at_origin; at_one] ∧
    ((∀ c x, c ∈ [at_origin; at_one] → x ∈ [at_origin] ++ [at_origin; at_one] →
             ∃ b, is_similar_lineup 0.5 5 c x = Ok b) →
     ∃ result, o = Ok result) ∧
    (∀ result, o = Ok result →
       (result ∉ dom two_lists) ∧
       ∃ kept, h' !! result = Some ([at_origin] ++ kept) ∧
         sublist kept [at_origin; at_one] ∧
         merge_list 0.5 5 [at_origin] [at_origin; at_one]
           = Ok ([at_origin] ++ kept) ∧
         (∀ C1 c C2, [at_origin; at_one] = C1 ++ c :: C2 →
            ∃ kept1 dup rest,
              merge_list 0.5 5 [at_origin] C1 = Ok ([at_origin] ++ kept1) ∧
              scan 0.5 5 c ([at_origin] ++ kept1) = Ok dup ∧
              kept = kept1 ++ (if dup : bool then [] else [c]) ++ rest ∧
              sublist kept1 C1 ∧ sublist rest C2) ∧
         (∀ i k, (length [at_origin] ≤ i)%nat →
                 ([at_origin] ++ kept) !! i = Some k →
                 scan 0.5 5 k (take i ([at_origin] ++ kept)) = Ok false) ∧
         (∀ c, c ∈ [at_origin; at_one] →
               scan 0.5 5 c ([at_origin] ++ kept) = Ok true ∨ c ∈ kept)).
Proof.
  split; [reflexivity|]. split; [reflexivity|].
  split; [vm_compute; reflexivity|].
  exact (merge_lineups_new_list_in_order 0.5 5 two_lists 1%positive 2%positive
           [at_origin] [at_origin; at_one] eq_refl eq_refl).
Defined.

(** The same run on a store: the copy is the list 3, list 1 is as it was. *)
Example merge_lineups_run :
  merge_lineups 0.5 5 1 2 two_lists
    = (<[3%positive := [at_origin; at_one]]> two_lists, Ok 3%positive).
Proof. vm_compute. reflexivity. Qed.

(** * The similarity test on Python's numbers *)

(** ** The two loops on an [int] *)

Section PythonIntegers.
Import Py.
Local Open Scope Z_scope.

Lemma centered_mod_int_range d : -180 < centered_mod d ≤ 180.
Proof. unfold centered_mod. pose proof (Z.mod_pos_bound (180 - d) 360). lia. Qed.

Lemma centered_mod_int_unique d r k :
  -180 < r ≤ 180 → r = d - 360 * k → centered_mod d = r.
Proof.
  intros Hr ->. unfold centered_mod.
  replace (180 - d) with ((180 - (d - 360 * k)) + (-k) * 360) by lia.
  rewrite Z.mod_add by lia. rewrite Z.mod_small by lia. lia.
Qed.

Lemma centered_mod_int_congruent d : ∃ k, centered_mod d = d - 360 * k.
Proof.
  unfold centered_mod. exists (- ((180 - d) / 360)).
  pose proof (Z.div_mod (180 - d) 360). lia.
Qed.

Lemma centered_mod_int_full_turns d k : centered_mod (d + 360 * k) = centered_mod d.
Proof.
  destruct (centered_mod_int_congruent d) as [j Hj].
  apply centered_mod_int_unique with (k := k + j); [apply centered_mod_int_range | lia].
Qed.

(** On an [int] the first loop ends within [(d - 180) / 360] iterations,
    at the representative of [d] in (-180, 180]. *)
Lemma while_gt_int fuel d :
  d ≤ 360 * Z.of_nat fuel + 180 →
  while_gt fuel (NInt d) = Returns (NInt (if 180 <? d then centered_mod d else d)).
Proof.
  revert d. induction fuel as [|fuel IH]; intros d Hd.
  - simpl. destruct (180 <? d) eqn:H; [apply Z.ltb_lt in H; lia | done].
  - simpl. destruct (180 <? d) eqn:H; [|done]. apply Z.ltb_lt in H.
    change (while_gt fuel (NInt (d - 360)) = Returns (NInt (centered_mod d))).
    rewrite IH by lia. do 2 f_equal.
    destruct (180 <? d - 360) eqn:H'.
    + transitivity (centered_mod ((d - 360) + 360 * 1));
        [symmetry; apply centered_mod_int_full_turns | f_equal; lia].
    + apply Z.ltb_ge in H'. symmetry. apply centered_mod_int_unique with (k := 1); lia.
Qed.

(** The second loop ends at the representative in [-180, 180). *)
Lemma while_lt_int fuel d :
  - d ≤ 360 * Z.of_nat fuel + 180 →
  while_lt fuel (NInt d)
    = Returns (NInt (if d <? -180 then - centered_mod (- d) else d)).
Proof.
  revert d. induction fuel as [|fuel IH]; intros d Hd.
  - simpl. destruct (d <? -180) eqn:H; [apply Z.ltb_lt in H; lia | done].
  - simpl. destruct (d <? -180) eqn:H; [|done]. apply Z.ltb_lt in H.
    change (while_lt fuel (NInt (d + 360)) = Returns (NInt (- centered_mod (- d)))).
    rewrite IH by lia. do 2 f_equal.
    destruct (d + 360 <? -180) eqn:H'.
    + f_equal. transitivity (centered_mod (- (d + 360) + 360 * 1));
        [symmetry; apply centered_mod_int_full_turns | f_equal; lia].
    + apply Z.ltb_ge in H'.
      assert (centered_mod (- d) = - (d + 360)) as ->
        by (apply centered_mod_int_unique with (k := 1); lia).
      lia.
Qed.

(** Enough fuel gives the result. *)
Lemma normalize_angle_int fuel d :
  Z.abs d ≤ 360 * Z.of_nat fuel + 180 →
  normalize_angle fuel (NInt d) = Returns (NInt (normalized_int d)).
Proof.
  intros Hd. unfold normalize_angle, normalized_int.
  rewrite while_gt_int by lia. simpl.
  destruct (180 <? d) eqn:H.
  - pose proof (centered_mod_int_range d) as Hr.
    rewrite while_lt_int by lia.
    destruct (centered_mod d <? -180) eqn:H'; [apply Z.ltb_lt in H'; lia | done].
  - by rewrite while_lt_int by lia.
Qed.


Lemma centered_mod_int_opp d :
  centered_mod (- d) = - centered_mod d ∨
  (centered_mod d = 180 ∧ centered_mod (- d) = 180).
Proof.
  pose proof (centered_mod_int_range d) as Hr.
  destruct (centered_mod_int_congruent d) as [k Hk].
  destruct (decide (centered_mod d = 180)) as [H|H].
  - right. split; [done|]. apply centered_mod_int_unique with (k := - k - 1); lia.
  - left. apply centered_mod_int_unique with (k := - k); lia.
Qed.

(** The loops agree with the centred reduction except at the differences
    [-180 - 360 k], where they give -180 and the reduction 180. *)
Lemma normalized_int_centered d :
  (d ≤ -180 ∧ centered_mod d = 180 ∧ normalized_int d = -180) ∨
  (¬ (d ≤ -180 ∧ centered_mod d = 180) ∧ normalized_int d = centered_mod d).
Proof.
  unfold normalized_int.
  pose proof (centered_mod_int_range d) as Hr.
  destruct (180 <? d) eqn:H1.
  { apply Z.ltb_lt in H1. right. split; [lia | done]. }
  apply Z.ltb_ge in H1.
  destruct (d <? -180) eqn:H2.
  - apply Z.ltb_lt in H2.
    destruct (centered_mod_int_opp d) as [H|[H H']].
    + right. split; [|lia]. intros [_ Hc].
      pose proof (centered_mod_int_range (- d)). lia.
    + left. lia.
  - apply Z.ltb_ge in H2.
    destruct (decide (d = -180)) as [->|Hne].
    + left. by vm_compute.
    + right. split.
      * intros [? _]. lia.
      * symmetry. apply centered_mod_int_unique with (k := 0); lia.
Qed.

Lemma normalized_int_abs d : Z.abs (normalized_int d) = Z.abs (centered_mod d).
Proof. destruct (normalized_int_centered d) as [(_ & -> & ->)|[_ ->]]; done. Qed.

Lemma abs_centered_mod_range d : 0 ≤ Z.abs (centered_mod d) ≤ 180.
Proof. pose proof (centered_mod_int_range d). lia. Qed.

(** ** The computation on lineups with [int] components *)

Lemma bind_Returns {A B} (m : result A) (k : A → result B) b :
  m ≫= k = Returns b ↔ ∃ a, m = Returns a ∧ k a = Returns b.
Proof.
  destruct m as [a|e|]; simpl; split; try done.
  - intros H. by exists a.
  - by intros (a' & [= <-] & H).
  - by intros (a' & ? & _).
  - by intros (a' & ? & _).
Qed.

(** On [int] components the sum of the squares is exact: the only
    rounding is in [math.sqrt], which converts the sum to a double. *)
Lemma calculate_distance_int x1 x2 x3 y1 y2 y3 :
  calculate_distance (VList [VInt x1; VInt x2; VInt x3])
                     (VList [VInt y1; VInt y2; VInt y3])
  = math_sqrt (NInt ((x1 - y1) ^ 2 + (x2 - y2) ^ 2 + (x3 - y3) ^ 2)).
Proof.
  unfold calculate_distance. cbn -[Z.pow math_sqrt Z.add Z.sub].
  do 2 f_equal.
Qed.

Lemma calculate_angle_difference_int fuel p1 w1 p2 w2 :
  Z.abs (p1 - p2) ≤ 360 * Z.of_nat fuel + 180 →
  Z.abs (w1 - w2) ≤ 360 * Z.of_nat fuel + 180 →
  calculate_angle_difference fuel (VList [VInt p1; VInt w1]) (VList [VInt p2; VInt w2])
  = math_sqrt (NInt (Z.abs (centered_mod (p1 - p2)) ^ 2
                     + Z.abs (centered_mod (w1 - w2)) ^ 2)).
Proof.
  intros Hp Hw. unfold calculate_angle_difference.
  cbn -[Z.pow math_sqrt Z.add Z.sub normalize_angle Z.abs Z.ltb].
  rewrite (normalize_angle_int fuel (p1 - p2)) by done.
  cbn -[Z.pow math_sqrt Z.add Z.sub normalize_angle Z.abs Z.ltb].
  rewrite (normalize_angle_int fuel (w1 - w2)) by done.
  cbn -[Z.pow math_sqrt Z.add Z.sub normalize_angle Z.abs Z.ltb].
  rewrite !normalized_int_abs.
  pose proof (abs_centered_mod_range (w1 - w2)) as Hr.
  destruct (180 <? Z.abs (centered_mod (w1 - w2))) eqn:H;
    [apply Z.ltb_lt in H; lia|].
  reflexivity.
Qed.

End PythonIntegers.

(** ** Angle normalisation against the specification *)

Section Normalisation.
Import Py PrimFloat.
Local Open Scope Z_scope.




End Normalisation.

(** ** The decision against the computed distances *)

Section Decision.
Import Py.
Local Open Scope Z_scope.

Lemma int_lineup_position x1 x2 x3 pitch yaw rest :
  int_lineup x1 x2 x3 pitch yaw rest !! "position"
    = Some (VList [VInt x1; VInt x2; VInt x3]).
Proof. unfold int_lineup. by rewrite lookup_insert_eq. Qed.

Lemma int_lineup_viewangles x1 x2 x3 pitch yaw rest :
  int_lineup x1 x2 x3 pitch yaw rest !! "viewangles"
    = Some (VList [VInt pitch; VInt yaw]).
Proof.
  unfold int_lineup. rewrite lookup_insert_ne by done. by rewrite lookup_insert_eq.
Qed.



Lemma is_similar_lineup_fields fuel max_pos max_angle (a b : lineup)
    pos1 pos2 va1 va2 :
  a !! "position" = Some pos1 → a !! "viewangles" = Some va1 →
  b !! "position" = Some pos2 → b !! "viewangles" = Some va2 →
  is_similar_lineup fuel max_pos max_angle a b =
    pos_distance ← calculate_distance pos1 pos2;
    angle_diff ← calculate_angle_difference fuel va1 va2;
    Returns (num_leb (NFloat pos_distance) max_pos
             && num_leb (NFloat angle_diff) max_angle).
Proof. intros Ha Hva Hb Hvb. unfold is_similar_lineup. by rewrite Ha, Hb, Hva, Hvb. Qed.



End Decision.

(** ** Malformed positions and viewangles *)

Section Malformed.
Import Py.
Local Open Scope Z_scope.

Lemma as_num_Raises v e : as_num v = Raises e → e = TypeError.
Proof. destruct v; simpl; congruence. Qed.

Lemma as_num_fuel v : as_num v ≠ OutOfFuel.
Proof. by destruct v. Qed.

Lemma float_of_int_cases z :
  float_of_int z = Raises OverflowError ∨ ∃ f, float_of_int z = Returns f.
Proof. unfold float_of_int. destruct (PrimFloat.is_infinity _); eauto. Qed.

Lemma to_float_cases x :
  to_float x = Raises OverflowError ∨ ∃ f, to_float x = Returns f.
Proof. destruct x; simpl; [apply float_of_int_cases | eauto]. Qed.

Lemma num_sub_cases x y :
  num_sub x y = Raises OverflowError ∨ ∃ d, num_sub x y = Returns d.
Proof.
  destruct x as [a|a], y as [b|b]; simpl; eauto;
    repeat match goal with
    | |- context [float_of_int ?z] =>
        destruct (float_of_int_cases z) as [->|[? ->]]; simpl; eauto
    end.
Qed.

Lemma num_add_cases x y :
  num_add x y = Raises OverflowError ∨ ∃ d, num_add x y = Returns d.
Proof.
  destruct x as [a|a], y as [b|b]; simpl; eauto;
    repeat match goal with
    | |- context [float_of_int ?z] =>
        destruct (float_of_int_cases z) as [->|[? ->]]; simpl; eauto
    end.
Qed.

Lemma num_pow2_cases x :
  num_pow2 x = Raises OverflowError ∨ ∃ d, num_pow2 x = Returns d.
Proof.
  destruct x as [a|a]; simpl; eauto. unfold float_pow2.
  repeat (destruct (_ : bool); simpl; eauto).
Qed.

Lemma py_sub_Returns a b d :
  py_sub a b = Returns d → numeric a ∧ numeric b.
Proof.
  unfold py_sub. intros H. apply bind_Returns in H as (x & Hx & H).
  apply bind_Returns in H as (y & Hy & _). split; by eexists.
Qed.

(** The sum over the pairs returns only when every paired entry is a
    number; it never runs out of fuel, and a failure is a [TypeError] or an
    [OverflowError]. *)
Lemma sum_squares_Returns acc pairs s :
  sum_squares acc pairs = Returns s →
  Forall (λ ab, numeric ab.1 ∧ numeric ab.2) pairs.
Proof.
  revert acc. induction pairs as [|[a b] pairs IH]; intros acc H; [constructor|].
  simpl in H. apply bind_Returns in H as (d & Hd & H).
  apply bind_Returns in H as (t & Ht & H).
  apply bind_Returns in H as (acc' & Hacc & H).
  constructor; [by apply py_sub_Returns in Hd | by apply (IH acc')].
Qed.

(** The sum returns a number or raises one of two exceptions; it has no
    loop that could go on. *)
Lemma sum_squares_cases acc pairs :
  (∃ s, sum_squares acc pairs = Returns s) ∨
  sum_squares acc pairs = Raises TypeError ∨
  sum_squares acc pairs = Raises OverflowError.
Proof.
  revert acc. induction pairs as [|[a b] pairs IH]; intros acc; simpl; [eauto|].
  unfold py_sub.
  destruct (as_num a) as [x|e|] eqn:Ha; simpl;
    [|apply as_num_Raises in Ha as ->; eauto | by apply as_num_fuel in Ha].
  destruct (as_num b) as [y|e|] eqn:Hb; simpl;
    [|apply as_num_Raises in Hb as ->; eauto | by apply as_num_fuel in Hb].
  destruct (num_sub_cases x y) as [->|[d ->]]; simpl; [eauto|].
  destruct (num_pow2_cases d) as [->|[t ->]]; simpl; [eauto|].
  destruct (num_add_cases acc t) as [->|[acc' ->]]; simpl; [eauto|].
  apply IH.
Qed.

Lemma py_iter_cases v :
  (∃ l, py_iter v = Returns l) ∨ py_iter v = Raises TypeError.
Proof. destruct v; simpl; eauto. Qed.

Lemma math_sqrt_cases x :
  (∃ f, math_sqrt x = Returns f) ∨ math_sqrt x = Raises OverflowError ∨
  math_sqrt x = Raises ValueError.
Proof.
  unfold math_sqrt. destruct (to_float_cases x) as [->|[f ->]]; simpl; [eauto|].
  destruct (PrimFloat.ltb f _); eauto.
Qed.

Lemma calculate_distance_Returns pos1 pos2 d :
  calculate_distance pos1 pos2 = Returns d → readable_position pos1 pos2.
Proof.
  unfold calculate_distance. intros H.
  apply bind_Returns in H as (l1 & H1 & H).
  apply bind_Returns in H as (l2 & H2 & H).
  apply bind_Returns in H as (s & Hs & _).
  exists l1, l2. repeat split; try done. by apply sum_squares_Returns in Hs.
Qed.

Lemma calculate_distance_unreadable pos1 pos2 :
  ¬ readable_position pos1 pos2 →
  calculate_distance pos1 pos2 = Raises TypeError ∨
  calculate_distance pos1 pos2 = Raises OverflowError.
Proof.
  intros Hno. unfold calculate_distance.
  destruct (py_iter_cases pos1) as [[l1 H1]| ->]; [|by left]. rewrite H1. simpl.
  destruct (py_iter_cases pos2) as [[l2 H2]| ->]; [|by left]. rewrite H2. simpl.
  destruct (sum_squares_cases (NInt 0) (py_zip l1 l2)) as [[s Hs]|[->| ->]];
    [|by left|by right].
  destruct Hno. exists l1, l2. repeat split; try done.
  by apply sum_squares_Returns in Hs.
Qed.

Lemma calculate_angle_difference_Returns fuel va1 va2 g :
  calculate_angle_difference fuel va1 va2 = Returns g →
  readable_viewangles va1 va2.
Proof.
  unfold calculate_angle_difference. intros H.
  apply bind_Returns in H as (p1 & H1 & H).
  apply bind_Returns in H as (p2 & H2 & H).
  apply bind_Returns in H as (dp & Hdp & H).
  apply bind_Returns in H as (np & _ & H).
  apply bind_Returns in H as (y1 & H3 & H).
  apply bind_Returns in H as (y2 & H4 & H).
  apply bind_Returns in H as (dy & Hdy & _).
  apply py_sub_Returns in Hdp as [? ?]. apply py_sub_Returns in Hdy as [? ?].
  by exists p1, p2, y1, y2.
Qed.

(** Positions of two and of four components, one of them a string that has
    no partner, and viewangles of three components: the answer is a
    boolean, no exception. *)
Lemma wrong_arity_returns_boolean :
  short_position !! "position" = Some (VList [VInt 0; VInt 0]) ∧
  short_position !! "viewangles" = Some (VList [VInt 0; VInt 0; VInt 90]) ∧
  long_position !! "position"
    = Some (VList [VInt 3; VInt 4; VInt 0; VStr "up"]) ∧
  long_position !! "viewangles" = Some (VList [VInt 0; VInt 0]) ∧
  (∀ fuel, is_similar_lineup fuel (NInt 10) (NInt 5) short_position long_position
           = Returns true) ∧
  ¬ (∃ fuel e, is_similar_lineup fuel (NInt 10) (NInt 5)
                 short_position long_position = Raises e).
Proof.
  assert (∀ fuel, is_similar_lineup fuel (NInt 10) (NInt 5)
                    short_position long_position = Returns true) as H
    by (intros []; vm_compute; reflexivity).
  do 4 (split; [reflexivity|]). split; [done|].
  intros (fuel & e & He). rewrite H in He. discriminate He.
Qed.

(** C9, amended.  On two lineups that hold both fields,
    [is_similar_lineup] returns a boolean only if every entry it reads is
    there and is a number: positions that are iterable with numeric paired
    entries, viewangles that can be indexed at 0 and 1 and hold numbers
    there.  Otherwise no boolean is returned, whatever the thresholds and
    however long the call runs; and when it is a position entry that cannot
    be read, the call raises [TypeError], or [OverflowError] where the
    arithmetic on an earlier pair failed first.  The number of components
    is not checked. *)
Theorem is_similar_boolean_only_if_readable (fuel : nat) (p a : num)
    (r1 r2 : lineup) (pos1 pos2 va1 va2 : value) :
  r1 !! "position" = Some pos1 → r2 !! "position" = Some pos2 →
  r1 !! "viewangles" = Some va1 → r2 !! "viewangles" = Some va2 →
  ((∃ b, is_similar_lineup fuel p a r1 r2 = Returns b) →
   readable_position pos1 pos2 ∧ readable_viewangles va1 va2) ∧
  (¬ (readable_position pos1 pos2 ∧ readable_viewangles va1 va2) →
   ∀ b, is_similar_lineup fuel p a r1 r2 ≠ Returns b) ∧
  (¬ readable_position pos1 pos2 →
   is_similar_lineup fuel p a r1 r2 = Raises TypeError ∨
   is_similar_lineup fuel p a r1 r2 = Raises OverflowError).
Proof.
  intros H1 H2 H3 H4.
  rewrite (is_similar_lineup_fields fuel p a r1 r2 pos1 pos2 va1 va2) by done.
  assert ((∃ b, (pos_distance ← calculate_distance pos1 pos2;
                 angle_diff ← calculate_angle_difference fuel va1 va2;
                 Returns (num_leb (NFloat pos_distance) p
                          && num_leb (NFloat angle_diff) a)) = Returns b) →
          readable_position pos1 pos2 ∧ readable_viewangles va1 va2) as Hok.
  { intros [b H]. apply bind_Returns in H as (d & Hd & H).
    apply bind_Returns in H as (g & Hg & _). split.
    - by apply calculate_distance_Returns in Hd.
    - by apply calculate_angle_difference_Returns in Hg. }
  split; [done|]. split.
  - intros Hno b Hb. apply Hno, Hok. by exists b.
  - intros Hno. by destruct (calculate_distance_unreadable pos1 pos2 Hno) as [-> | ->];
      [left|right].
Qed.

Lemma is_similar_boolean_only_if_readable_witness :
  is_similar_lineup 0 (NInt 10) (NInt 5) short_viewangles origin
    = Raises IndexError ∧
  is_similar_lineup 0 (NInt 10) (NInt 5) long_position long_position
    = Raises TypeError ∧
  ((∃ b, is_similar_lineup 0 (NInt 10) (NInt 5) short_viewangles origin
           = Returns b) →
   readable_position (VList [VInt 0; VInt 0; VInt 0]) (VList [VInt 0; VInt 0; VInt 0]) ∧
   readable_viewangles (VList [VInt 0]) (VList [VInt 0; VInt 0])) ∧
  (¬ (readable_position (VList [VInt 0; VInt 0; VInt 0])
                        (VList [VInt 0; VInt 0; VInt 0]) ∧
      readable_viewangles (VList [VInt 0]) (VList [VInt 0; VInt 0])) →
   ∀ b, is_similar_lineup 0 (NInt 10) (NInt 5) short_viewangles origin
          ≠ Returns b) ∧
  (¬ readable_position (VList [VInt 0; VInt 0; VInt 0])
                       (VList [VInt 0; VInt 0; VInt 0]) →
   is_similar_lineup 0 (NInt 10) (NInt 5) short_viewangles origin
     = Raises TypeError ∨
   is_similar_lineup 0 (NInt 10) (NInt 5) short_viewangles origin
     = Raises OverflowError).
Proof.
  split; [vm_compute; reflexivity|]. split; [vm_compute; reflexivity|].
  apply (is_similar_boolean_only_if_readable 0 (NInt 10) (NInt 5)
           short_viewangles origin); reflexivity.
Defined.

End Malformed.

(** ** Termination of the normalisation *)

Section Doubles.
Import Py PrimFloat.
Local Open Scope Z_scope.

(** A first loop whose subtraction gives back the same value never ends. *)
Lemma while_gt_stuck (x : num) :
  num_ltb (NInt 180) x = true → num_sub x (NInt 360) = Returns x →
  ∀ fuel, while_gt fuel x = OutOfFuel.
Proof.
  intros Hgt Hsub fuel. induction fuel as [|fuel IH]; cbn [while_gt]; rewrite Hgt; [done|].
  by rewrite Hsub.
Qed.

Lemma while_lt_stuck (x : num) :
  num_ltb x (NInt (-180)) = true → num_add x (NInt 360) = Returns x →
  ∀ fuel, while_lt fuel x = OutOfFuel.
Proof.
  intros Hlt Hadd fuel. induction fuel as [|fuel IH]; cbn [while_lt]; rewrite Hlt; [done|].
  by rewrite Hadd.
Qed.

(** C10.  The pitch angles [1e19] and [0] are finite, and their lineups
    hold both fields; the raw difference is [1e19], above 180, and
    [1e19 - 360] is rounded back to [1e19].  So the first loop makes no
    progress: [normalize_angle], [calculate_angle_difference] and
    [is_similar_lineup] are still running after any number of iterations,
    whatever the thresholds. *)
Theorem is_similar_never_returns_on_finite_double :
  pitch_1e19 !! "position" = Some (VList [VInt 0; VInt 0; VInt 0]) ∧
  pitch_1e19 !! "viewangles" = Some (VList [VFloat 1e19; VInt 0]) ∧
  origin !! "position" = Some (VList [VInt 0; VInt 0; VInt 0]) ∧
  origin !! "viewangles" = Some (VList [VInt 0; VInt 0]) ∧
  finite 1e19 = true ∧
  py_sub (VFloat 1e19) (VInt 0) = Returns (NFloat 1e19) ∧
  num_ltb (NInt 180) (NFloat 1e19) = true ∧
  num_sub (NFloat 1e19) (NInt 360) = Returns (NFloat 1e19) ∧
  (∀ fuel, normalize_angle fuel (NFloat 1e19) = OutOfFuel) ∧
  (∀ fuel, calculate_angle_difference fuel
             (VList [VFloat 1e19; VInt 0]) (VList [VInt 0; VInt 0]) = OutOfFuel) ∧
  (∀ fuel max_pos max_angle,
     is_similar_lineup fuel max_pos max_angle pitch_1e19 origin = OutOfFuel).
Proof.
  assert (∀ fuel, normalize_angle fuel (NFloat 1e19) = OutOfFuel) as Hloop.
  { intros fuel. unfold normalize_angle. by rewrite while_gt_stuck. }
  assert (∀ fuel, calculate_angle_difference fuel
            (VList [VFloat 1e19; VInt 0]) (VList [VInt 0; VInt 0]) = OutOfFuel)
    as Hangle.
  { intros fuel. unfold calculate_angle_difference.
    change (py_index (VList [VFloat 1e19; VInt 0]) 0) with (Returns (VFloat 1e19)).
    change (py_index (VList [VInt 0; VInt 0]) 0) with (Returns (VInt 0)).
    unfold mbind at 1 2, result_bind at 1 2.
    change (py_sub (VFloat 1e19) (VInt 0)) with (Returns (NFloat 1e19)).
    unfold mbind at 1, result_bind at 1. by rewrite Hloop. }
  do 8 (split; [reflexivity|]). split; [done|]. split; [done|].
  intros fuel max_pos max_angle.
  rewrite (is_similar_lineup_fields fuel max_pos max_angle pitch_1e19 origin
             (VList [VInt 0; VInt 0; VInt 0]) (VList [VInt 0; VInt 0; VInt 0])
             (VList [VFloat 1e19; VInt 0]) (VList [VInt 0; VInt 0]))
    by reflexivity.
  rewrite Hangle.
  by replace (calculate_distance (VList [VInt 0; VInt 0; VInt 0])
                (VList [VInt 0; VInt 0; VInt 0]))
    with (Returns (A := float) 0%float) by (vm_compute; reflexivity).
Qed.

End Doubles.

(** * Further properties *)

(** ** The similarity test *)

Lemma root_leb_zero s m : s == 0 → root_leb (Sqrt s) m = Qle_bool 0 m.
Proof.
  intros Hs. apply eq_true_iff_eq. rewrite root_leb_true, Qle_bool_iff.
  split; [by intros [H _]|]. intros H. split; [done|]. rewrite Hs. nra.
Qed.

(** X1.  A lineup of the data model is similar to itself exactly when
    neither threshold is negative. *)
Theorem self_similar_iff_thresholds_nonnegative (max_pos max_angle : Q)
    (c : lineup) :
  valid_lineup c →
  is_similar_lineup max_pos max_angle c c
    = Ok (Qle_bool 0 max_pos && Qle_bool 0 max_angle).
Proof.
  intros (x1 & x2 & x3 & pitch & yaw & Hpos & Hva).
  rewrite (is_similar_lineup_valid _ _ _ _ _ _ _ _ _ _ _ _ _ _ Hpos Hva Hpos Hva).
  assert (∀ q, Qabs (normalize_angle (q - q)) == 0) as Hzero.
  { intros q. by rewrite (Qabs_normalize_proper (q - q) 0) by ring. }
  rewrite !root_leb_zero; [done| |].
  - rewrite !Hzero, !Qsquare. ring.
  - rewrite !Qsquare. ring.
Qed.

Lemma self_similar_iff_thresholds_nonnegative_witness :
  valid_lineup at_origin ∧
  is_similar_lineup (-1) 5 at_origin at_origin
    = Ok (Qle_bool 0 (-1) && Qle_bool 0 5) ∧
  is_similar_lineup (-1) 5 at_origin at_origin = Ok false.
Proof.
  assert (valid_lineup at_origin) as H by (by exists 0, 0, 0, 0, 0).
  exact (conj H (conj (self_similar_iff_thresholds_nonnegative (-1) 5 at_origin H)
                      eq_refl)).
Defined.





(** ** Lineups with [int] components *)

Section IntegerLineups.
Import Py.
Local Open Scope Z_scope.

(** X5.  Whole turns do not matter between lineups with [int] angles:
    adding a multiple of 360 to the pitch and to the yaw of a lineup
    changes no answer of [is_similar_lineup], nor an exception, given fuel
    for the larger of the differences. *)
Theorem full_turns_change_nothing (fuel : nat) (max_pos max_angle : num)
    (pitch yaw pitch' yaw' kp ky : Z) (a b : lineup) :
  a !! "viewangles" = Some (VList [VInt pitch; VInt yaw]) →
  b !! "viewangles" = Some (VList [VInt pitch'; VInt yaw']) →
  Z.abs (pitch - pitch') + 360 * Z.abs kp ≤ 360 * Z.of_nat fuel + 180 →
  Z.abs (yaw - yaw') + 360 * Z.abs ky ≤ 360 * Z.of_nat fuel + 180 →
  is_similar_lineup fuel max_pos max_angle
    (<["viewangles" := VList [VInt (pitch + 360 * kp); VInt (yaw + 360 * ky)]]> a) b
  = is_similar_lineup fuel max_pos max_angle a b.
Proof.
  intros Hva Hvb Hp Hy. unfold is_similar_lineup.
  rewrite lookup_insert_ne by done. rewrite lookup_insert_eq, Hva, Hvb.
  destruct (a !! "position") as [pos1|]; [|done].
  destruct (b !! "position") as [pos2|]; [|done].
  rewrite !calculate_angle_difference_int by lia.
  replace (pitch + 360 * kp - pitch') with (pitch - pitch' + 360 * kp) by lia.
  replace (yaw + 360 * ky - yaw') with (yaw - yaw' + 360 * ky) by lia.
  by rewrite !centered_mod_int_full_turns.
Qed.

Lemma full_turns_change_nothing_witness :
  is_similar_lineup 3 (NInt 5) (NInt 2)
    (<["viewangles" := VList [VInt (0 + 360 * 2); VInt (179 + 360 * -1)]]> three_four)
    yaw_minus_179
  = Returns true ∧
  is_similar_lineup 3 (NInt 5) (NInt 2)
    (<["viewangles" := VList [VInt (0 + 360 * 2); VInt (179 + 360 * -1)]]> three_four)
    yaw_minus_179
  = is_similar_lineup 3 (NInt 5) (NInt 2) three_four yaw_minus_179.
Proof.
  split; [vm_compute; reflexivity|].
  apply (full_turns_change_nothing 3 (NInt 5) (NInt 2) 0 179 0 (-179) 2 (-1)
           three_four yaw_minus_179);
    [reflexivity | reflexivity | vm_compute; discriminate | vm_compute; discriminate].
Defined.

(** X7.  Moving two lineups with [int] positions by the same [int]
    offset changes no answer, nor an exception: only the differences of
    the coordinates count, and on [int] they are exact. *)
Theorem translation_changes_nothing (fuel : nat) (max_pos max_angle : num)
    (x1 x2 x3 y1 y2 y3 t1 t2 t3 : Z) (a b : lineup) :
  a !! "position" = Some (VList [VInt x1; VInt x2; VInt x3]) →
  b !! "position" = Some (VList [VInt y1; VInt y2; VInt y3]) →
  is_similar_lineup fuel max_pos max_angle
    (<["position" := VList [VInt (x1 + t1); VInt (x2 + t2); VInt (x3 + t3)]]> a)
    (<["position" := VList [VInt (y1 + t1); VInt (y2 + t2); VInt (y3 + t3)]]> b)
  = is_similar_lineup fuel max_pos max_angle a b.
Proof.
  intros Ha Hb. unfold is_similar_lineup.
  rewrite !lookup_insert_eq, !lookup_insert_ne by done. rewrite Ha, Hb.
  destruct (a !! "viewangles") as [va1|]; [|done].
  destruct (b !! "viewangles") as [va2|]; [|done].
  rewrite !calculate_distance_int.
  replace (x1 + t1 - (y1 + t1)) with (x1 - y1) by lia.
  replace (x2 + t2 - (y2 + t2)) with (x2 - y2) by lia.
  by replace (x3 + t3 - (y3 + t3)) with (x3 - y3) by lia.
Qed.

Lemma translation_changes_nothing_witness :
  is_similar_lineup 1 (NInt 5) (NInt 2)
    (<["position" := VList [VInt (3 + 10 ^ 20); VInt (4 + -7); VInt (0 + 1)]]>
       three_four)
    (<["position" := VList [VInt (0 + 10 ^ 20); VInt (0 + -7); VInt (0 + 1)]]>
       yaw_minus_179)
  = Returns true ∧
  is_similar_lineup 1 (NInt 5) (NInt 2)
    (<["position" := VList [VInt (3 + 10 ^ 20); VInt (4 + -7); VInt (0 + 1)]]>
       three_four)
    (<["position" := VList [VInt (0 + 10 ^ 20); VInt (0 + -7); VInt (0 + 1)]]>
       yaw_minus_179)
  = is_similar_lineup 1 (NInt 5) (NInt 2) three_four yaw_minus_179.
Proof.
  split; [vm_compute; reflexivity|].
  apply (translation_changes_nothing 1 (NInt 5) (NInt 2) 3 4 0 0 0 0 (10 ^ 20) (-7) 1
           three_four yaw_minus_179); reflexivity.
Defined.

End IntegerLineups.

(** ** The merge *)

(** X8.  The first candidate of a batch merged into an empty list is kept
    without being compared with anything: a batch of one lineup merges into
    that lineup alone, whatever it holds; a longer batch is merged as its
    rest into the list of its first lineup, which heads the result. *)
Theorem first_candidate_heads_new_group (p a : Q) (c : lineup)
    (cs : list lineup) :
  merge p a [] [c] = Ok [c] ∧
  merge p a [] (c :: cs) = merge p a [c] cs ∧
  (∀ R, merge p a [] (c :: cs) = Ok R → ∃ R', R = c :: R' ∧ sublist R' cs).
Proof.
  rewrite !merge_merge_list. split; [done|]. split; [done|].
  simpl. intros R H.
  apply merge_list_app in H as (kept & -> & Hsub). by exists kept.
Qed.

Lemma first_candidate_heads_new_group_witness :
  merge 10 5 [] [short_viewangles; no_viewangles]
    = Ok [short_viewangles; no_viewangles] ∧
  merge 10 5 [] [short_viewangles] = Ok [short_viewangles] ∧
  merge 10 5 [] [short_viewangles; no_viewangles]
    = merge 10 5 [short_viewangles] [no_viewangles] ∧
  (∀ R, merge 10 5 [] [short_viewangles; no_viewangles] = Ok R →
        ∃ R', R = short_viewangles :: R' ∧ sublist R' [no_viewangles]).
Proof.
  split; [vm_compute; reflexivity|].
  exact (first_candidate_heads_new_group 10 5 short_viewangles [no_viewangles]).
Defined.




(** X10.  Candidate dictionaries that lack a position or viewangles are
    all appended, in their order, and no exception is raised, whatever
    lineup dictionaries the existing list holds. *)
Theorem candidates_without_fields_all_appended (p a : Q) (E C : list lineup) :
  Forall (λ c : lineup, c !! "position" = None ∨ c !! "viewangles" = None) C →
  merge p a E C = Ok (E ++ C).
Proof.
  rewrite merge_merge_list. intros HC. revert E.
  induction HC as [|c cs Hc _ IH]; intros E; simpl; [by rewrite app_nil_r|].
  assert (scan p a c E = Ok false) as ->.
  { apply scan_false_iff, Forall_forall. intros e _.
    apply is_similar_lineup_Ok. left. split; [done|]. tauto. }
  simpl. rewrite IH. by rewrite <- app_assoc.
Qed.

Lemma candidates_without_fields_all_appended_witness :
  Forall (λ c : lineup, c !! "position" = None ∨ c !! "viewangles" = None)
         [no_viewangles; no_viewangles] ∧
  merge 10 5 [short_viewangles] [no_viewangles; no_viewangles]
    = Ok ([short_viewangles] ++ [no_viewangles; no_viewangles]).
Proof.
  assert (Forall (λ c : lineup, c !! "position" = None ∨ c !! "viewangles" = None)
                 [no_viewangles; no_viewangles]) as H
    by (repeat constructor; right; reflexivity).
  exact (conj H (candidates_without_fields_all_appended 10 5 [short_viewangles]
                   [no_viewangles; no_viewangles] H)).
Defined.

Lemma merge_of_concatenated_batches_aux p a E C1 C2 :
  merge p a E (C1 ++ C2) = (R ← merge p a E C1; merge p a R C2).
Proof.
  rewrite !merge_merge_list, merge_list_concat.
  destruct (merge_list p a E C1) as [R|e]; simpl; [|done].
  by rewrite merge_merge_list.
Qed.

(** X11.  Merging two batches one after the other is merging their
    concatenation: the result, or the exception, is the same. *)
Theorem merge_of_concatenated_batches (p a : Q) (E C1 C2 : list lineup) :
  merge p a E (C1 ++ C2) = (R ← merge p a E C1; merge p a R C2).
Proof. apply merge_of_concatenated_batches_aux. Qed.


(** ** The run over the files *)

Lemma total_size_empty : total_size ∅ = 0%Z.
Proof. unfold total_size. by rewrite map_to_list_empty. Qed.

Lemma total_size_insert_None (data : gmap string (list lineup)) k l :
  data !! k = None →
  total_size (<[k := l]> data) = (total_size data + Z.of_nat (length l))%Z.
Proof.
  intros Hk. unfold total_size.
  rewrite (map_to_list_insert data k l Hk). simpl. lia.
Qed.

Lemma total_size_insert_Some (data : gmap string (list lineup)) k l l0 :
  data !! k = Some l0 →
  total_size (<[k := l]> data)
  = (total_size data - Z.of_nat (length l0) + Z.of_nat (length l))%Z.
Proof.
  intros Hk.
  rewrite <- (insert_delete_eq data k l).
  rewrite <- (insert_delete_id data k l0 Hk) at 2.
  rewrite !total_size_insert_None by apply lookup_delete_eq. lia.
Qed.

Lemma total_size_remove_empty_maps (data : gmap string (list lineup)) :
  total_size (remove_empty_maps data) = total_size data.
Proof.
  unfold remove_empty_maps.
  induction data as [|k l data Hk IH] using map_ind.
  - by rewrite map_filter_empty.
  - rewrite map_filter_insert. simpl. case_decide as Hl.
    + rewrite !total_size_insert_None; [lia|done|].
      apply map_lookup_filter_None. by left.
    + rewrite delete_id by done. rewrite total_size_insert_None by done.
      rewrite IH. destruct l; simpl in *; lia.
Qed.

(** The step for a list of lineups, by the outcome of the merge. *)
Lemma process_map_lineups p a st k C :
  process_map p a st k (Lineups C) =
    match merge p a (default [] (combined_data st !! k)) C with
    | Ok R =>
        (RunState (<[k := R]> (combined_data st))
           (total_lineups_processed st + Z.of_nat (length C))
           (total_lineups_added st
            + (Z.of_nat (length R)
               - Z.of_nat (length (default [] (combined_data st !! k)))))
           (files_processed st), Ok ())
    | Raise e =>
        (RunState (match combined_data st !! k with
                   | None => <[k := []]> (combined_data st)
                   | Some _ => combined_data st
                   end)
           (total_lineups_processed st + Z.of_nat (length C))
           (total_lineups_added st) (files_processed st), Raise e)
    end.
Proof.
  unfold process_map. destruct (combined_data st !! k) as [l|] eqn:Hk.
  - rewrite Hk. simpl. by destruct (merge p a l C).
  - rewrite lookup_insert_eq. simpl.
    destruct (merge p a [] C); [|done]. by rewrite insert_insert_eq.
Qed.

(** A relation that every step respects holds between the start and the
    end of a file, and of a run. *)
Lemma process_items_rel p a (Rel : run_state → run_state → Prop) :
  Reflexive Rel → Transitive Rel →
  (∀ st k v, Rel st (process_map p a st k v).1) →
  ∀ items st, Rel st (process_items p a st items).1.
Proof.
  intros Hrefl Htrans Hstep items.
  induction items as [|[k v] items IH]; intros st; simpl; [done|].
  specialize (Hstep st k v).
  destruct (process_map p a st k v) as [st' [[]|e]]; simpl in *; [|done].
  by etrans.
Qed.

Lemma process_files_rel p a (Rel : run_state → run_state → Prop) :
  Reflexive Rel → Transitive Rel →
  (∀ st k v, Rel st (process_map p a st k v).1) →
  (∀ data n m f, Rel (RunState data n m f) (RunState data n m (f + 1))) →
  ∀ files st, Rel st (process_files p a st files).
Proof.
  intros Hrefl Htrans Hstep Hbump files. unfold process_files.
  induction files as [|f files IH]; intros st; simpl; [done|].
  etrans; [|apply IH]. destruct f as [|items]; simpl; [done|].
  pose proof (process_items_rel p a Rel Hrefl Htrans Hstep items st) as H.
  destruct (process_items p a st items) as [st' [[]|e]]; simpl in *; [|done].
  etrans; [exact H|]. destruct st'. apply Hbump.
Qed.

Lemma grows_refl : Reflexive grows.
Proof. intros st k l Hk. exists []. by rewrite app_nil_r. Qed.

Lemma grows_trans : Transitive grows.
Proof.
  intros st1 st2 st3 H12 H23 k l Hk.
  destruct (H12 k l Hk) as [l1 H1]. destruct (H23 _ _ H1) as [l2 H2].
  exists (l1 ++ l2). by rewrite app_assoc.
Qed.

Lemma process_map_grows p a st k v : grows st (process_map p a st k v).1.
Proof.
  destruct v as [C|v]; [|apply grows_refl].
  rewrite process_map_lineups. intros k' l Hk'.
  destruct (merge p a _ C) as [R|e] eqn:Hmerge; simpl.
  - destruct (decide (k = k')) as [->|Hne].
    + rewrite Hk' in Hmerge. simpl in Hmerge. rewrite merge_merge_list in Hmerge.
      apply merge_list_app in Hmerge as (kept & -> & _).
      exists kept. by rewrite lookup_insert_eq.
    + exists []. by rewrite lookup_insert_ne, app_nil_r.
  - exists []. rewrite app_nil_r. destruct (combined_data st !! k) eqn:Hk; [done|].
    rewrite lookup_insert_ne; [done|]. intros ->. congruence.
Qed.

(** X12.  A run never removes or reorders what it has accepted: whatever
    the files hold, readable or not, each group at the end of the run
    starts with the group as it was at the start. *)
Theorem groups_only_grow (p a : Q) (files : list json_file) (st : run_state)
    (k : string) (l : list lineup) :
  combined_data st !! k = Some l →
  ∃ l', combined_data (process_files p a st files) !! k = Some (l ++ l').
Proof.
  intros Hk.
  by apply (process_files_rel p a grows grows_refl grows_trans
              (process_map_grows p a) (λ _ _ _ _, grows_refl _) files st).
Qed.

Lemma groups_only_grow_witness :
  combined_data (process_files 10 5 initial_state [file_one]) !! "de_dust2"
    = Some [at_origin] ∧
  ∃ l', combined_data
          (process_files 0.5 5 (process_files 10 5 initial_state [file_one])
             [Unreadable; file_bad; file_one]) !! "de_dust2"
        = Some ([at_origin] ++ l').
Proof.
  exact (conj eq_refl
    (groups_only_grow 0.5 5 [Unreadable; file_bad; file_one]
       (process_files 10 5 initial_state [file_one]) "de_dust2" [at_origin]
       eq_refl)).
Defined.







Lemma process_map_counters p a st k v :
  counters_ok st → counters_ok (process_map p a st k v).1.
Proof.
  destruct v as [C|v]; [|done]. rewrite process_map_lineups. intros [Hadd Hle].
  destruct (merge p a _ C) as [R|e] eqn:Hmerge; unfold counters_ok; simpl.
  - rewrite merge_merge_list in Hmerge.
    apply merge_list_app in Hmerge as (kept & -> & Hsub%sublist_length).
    rewrite length_app.
    destruct (combined_data st !! k) as [l|] eqn:Hk; simpl in *.
    + rewrite (total_size_insert_Some _ _ _ l Hk), length_app. lia.
    + rewrite total_size_insert_None by done. simpl. lia.
  - destruct (combined_data st !! k) as [l|] eqn:Hk.
    + lia.
    + rewrite total_size_insert_None by done. simpl. lia.
Qed.

Lemma process_files_counters p a files st :
  counters_ok st → counters_ok (process_files p a st files).
Proof.
  apply (process_files_rel p a (λ st st', counters_ok st → counters_ok st')).
  - by intros ?.
  - intros st1 st2 st3 H12 H23 H1. auto.
  - apply process_map_counters.
  - by intros.
Qed.

Lemma process_map_files_processed p a st k v :
  files_processed (process_map p a st k v).1 = files_processed st.
Proof.
  destruct v as [C|v]; [|done]. rewrite process_map_lineups.
  by destruct (merge p a _ C).
Qed.

Lemma process_items_files_processed p a items st :
  files_processed (process_items p a st items).1 = files_processed st.
Proof.
  symmetry. revert items st.
  apply (process_items_rel p a (λ st st', files_processed st = files_processed st')).
  - by intros ?.
  - intros ??? -> ->. done.
  - intros st k v. by rewrite process_map_files_processed.
Qed.

Lemma process_files_files_processed p a files st :
  (files_processed st ≤ files_processed (process_files p a st files)
   ≤ files_processed st + Z.of_nat (length files))%Z.
Proof.
  unfold process_files. revert st.
  induction files as [|f files IH]; intros st; simpl; [lia|].
  specialize (IH (process_file p a st f)).
  assert (files_processed st ≤ files_processed (process_file p a st f)
          ≤ files_processed st + 1)%Z; [|lia].
  destruct f as [|items]; simpl; [lia|].
  pose proof (process_items_files_processed p a items st) as H.
  destruct (process_items p a st items) as [st' [[]|e]]; simpl in *; lia.
Qed.

(** X14.  The statistics of a run agree with what it saves: the number of
    lineups added is the number of lineups in the saved object, it is not
    negative and not more than the number processed, so the number of
    duplicates removed is not negative; the number of maps is the number of
    saved groups; no more files are counted than there are, and the number
    of empty maps removed is not negative. *)
Theorem statistics_agree_with_saved (p a : Q) (files : list json_file)
    (r : report) :
  combine_json_files p a (Some files) = Some r →
  stat_added r = total_size (saved r) ∧
  (0 ≤ stat_added r ≤ stat_processed r)%Z ∧
  stat_duplicates_removed r = (stat_processed r - stat_added r)%Z ∧
  (0 ≤ stat_duplicates_removed r)%Z ∧
  stat_maps_with_lineups r = Z.of_nat (size (saved r)) ∧
  (0 ≤ stat_files_processed r ≤ Z.of_nat (length files))%Z ∧
  (0 ≤ stat_empty_maps_removed r)%Z.
Proof.
  intros [= <-]. simpl.
  destruct (process_files_counters p a files initial_state) as [Hadd Hle].
  { split; [symmetry; apply total_size_empty | done]. }
  pose proof (process_files_files_processed p a files initial_state) as Hfiles.
  simpl in Hfiles. rewrite total_size_remove_empty_maps.
  assert (0 ≤ total_size (combined_data (process_files p a initial_state files)))%Z
    by (unfold total_size; lia).
  assert (size (remove_empty_maps
                  (combined_data (process_files p a initial_state files)))
          ≤ size (combined_data (process_files p a initial_state files)))%nat
    by apply map_subseteq_size, map_filter_subseteq.
  repeat split; try done; lia.
Qed.

Lemma statistics_agree_with_saved_witness :
  ∃ r, combine_json_files 10 5 (Some [file_one; Unreadable; file_bad; file_one])
       = Some r ∧
  (stat_added r = 2 ∧ stat_processed r = 6 ∧ stat_files_processed r = 2)%Z ∧
  stat_added r = total_size (saved r) ∧
  (0 ≤ stat_added r ≤ stat_processed r)%Z ∧
  stat_duplicates_removed r = (stat_processed r - stat_added r)%Z ∧
  (0 ≤ stat_duplicates_removed r)%Z ∧
  stat_maps_with_lineups r = Z.of_nat (size (saved r)) ∧
  (0 ≤ stat_files_processed r ≤ Z.of_nat (length [file_one; Unreadable; file_bad; file_one]))%Z ∧
  (0 ≤ stat_empty_maps_removed r)%Z.
Proof.
  eexists. split; [reflexivity|]. split; [vm_compute; done|].
  exact (statistics_agree_with_saved 10 5 [file_one; Unreadable; file_bad; file_one]
           _ eq_refl).
Defined.


Lemma process_items_cons p a st k v rest :
  process_items p a st ((k, v) :: rest) =
    match process_map p a st k v with
    | (st', Ok _) => process_items p a st' rest
    | (st', Raise e) => (st', Raise e)
    end.
Proof. reflexivity. Qed.

(** X15.  The groups are merged independently of each other: after a file
    that is processed without an exception, the group of every map name is
    the merge of the group as it was with the lists that the file holds
    under that name, taken in their order. *)
Theorem groups_are_independent (p a : Q) (items : list (string * map_value))
    (st st' : run_state) (k : string) :
  process_items p a st items = (st', Ok ()) →
  merge p a (default [] (combined_data st !! k)) (batch_for k items)
    = Ok (default [] (combined_data st' !! k)).
Proof.
  revert st. induction items as [|[k' [C|v]] items IH]; intros st H.
  - injection H as <-. by rewrite merge_merge_list.
  - rewrite process_items_cons, process_map_lineups in H.
    destruct (merge p a (default [] (combined_data st !! k')) C) as [R|e] eqn:HR;
      [|done].
    apply IH in H. simpl in H. simpl batch_for. case_decide as Hk.
    + subst k'. rewrite lookup_insert_eq in H. simpl in H.
      by rewrite merge_of_concatenated_batches_aux, HR.
    + by rewrite lookup_insert_ne in H.
  - by apply IH.
Qed.

Lemma groups_are_independent_witness :
  process_items 10 5 initial_state
    [("de_dust2", Lineups [at_origin]); ("de_mirage", Lineups [yaw_179]);
     ("de_dust2", Lineups [at_one; yaw_minus_179])]
  = (RunState {[ "de_dust2" := [at_origin; yaw_minus_179]; "de_mirage" := [yaw_179] ]} 4 3 0,
     Ok ()) ∧
  merge 10 5 (default [] (combined_data initial_state !! "de_dust2"))
    (batch_for "de_dust2"
       [("de_dust2", Lineups [at_origin]); ("de_mirage", Lineups [yaw_179]);
        ("de_dust2", Lineups [at_one; yaw_minus_179])])
  = Ok (default []
          (combined_data
             (RunState {[ "de_dust2" := [at_origin; yaw_minus_179]; "de_mirage" := [yaw_179] ]}
                4 3 0) !! "de_dust2")).
Proof.
  assert (process_items 10 5 initial_state
            [("de_dust2", Lineups [at_origin]); ("de_mirage", Lineups [yaw_179]);
             ("de_dust2", Lineups [at_one; yaw_minus_179])]
          = (RunState {[ "de_dust2" := [at_origin; yaw_minus_179]; "de_mirage" := [yaw_179] ]}
               4 3 0, Ok ())) as H by (vm_compute; reflexivity).
  exact (conj H (groups_are_independent 10 5 _ _ _ "de_dust2" H)).
Defined.

Lemma covered_insert p a (data : gmap string (list lineup)) k R k' C :
  covered p a data k' C → (∀ l, data !! k = Some l → ∃ l', R = l ++ l') →
  covered p a (<[k := R]> data) k' C.
Proof.
  intros (l & Hl & Hall) HR. destruct (decide (k = k')) as [->|Hne].
  - destruct (HR l Hl) as [l' ->]. exists (l ++ l').
    split; [by rewrite lookup_insert_eq|].
    eapply Forall_impl; [exact Hall|]. intros c Hc. by apply scan_app_true.
  - exists l. by rewrite lookup_insert_ne.
Qed.

(** After a file processed without an exception, every candidate of the
    file has a similar lineup in its group, if it is similar to itself. *)
Lemma process_items_covers p a items st st' :
  (∀ k C, (k, Lineups C) ∈ items →
          Forall (λ c, is_similar_lineup p a c c = Ok true) C) →
  process_items p a st items = (st', Ok ()) →
  ∀ k C, (k, Lineups C) ∈ items → covered p a (combined_data st') k C.
Proof.
  revert st. induction items as [|[k0 v] items IH]; intros st Hself H k C Hin.
  { by apply elem_of_nil in Hin. }
  rewrite process_items_cons in H.
  destruct (process_map p a st k0 v) as [st1 [[]|e]] eqn:Hstep; [|done].
  assert (grows st1 st') as Hgrow.
  { pose proof (process_items_rel p a grows grows_refl grows_trans
                  (process_map_grows p a) items st1) as Hg.
    by rewrite H in Hg. }
  apply elem_of_cons in Hin as [[= -> <-]|Hin].
  - rewrite process_map_lineups in Hstep.
    destruct (merge p a (default [] (combined_data st !! k0)) C) as [R|e] eqn:HR;
      [|done].
    injection Hstep as <-. rewrite merge_merge_list in HR.
    destruct (Hgrow k0 R) as [l' Hl']; [simpl; by rewrite lookup_insert_eq|].
    exists (R ++ l'). split; [done|].
    assert (Forall (λ c, scan p a c R = Ok true) C) as Hcov.
    { apply (merge_list_covers p a (default [] (combined_data st !! k0)) C R);
        [|done]. apply (Hself k0). by left. }
    eapply Forall_impl; [exact Hcov|]. intros c Hc. by apply scan_app_true.
  - apply (IH st1); [|done..]. intros k1 C1 H1. apply (Hself k1). by right.
Qed.

(** A file of which every candidate has a similar lineup in its group
    leaves the groups and the number of lineups added as they are. *)
Lemma process_items_all_covered p a items st :
  (∀ k C, (k, Lineups C) ∈ items → covered p a (combined_data st) k C) →
  ∃ st', process_items p a st items = (st', Ok ()) ∧
         combined_data st' = combined_data st ∧
         total_lineups_added st' = total_lineups_added st.
Proof.
  revert st. induction items as [|[k [C|v]] items IH]; intros st Hcov.
  - by exists st.
  - rewrite process_items_cons, process_map_lineups.
    destruct (Hcov k C) as (l & Hl & Hall); [by left|].
    rewrite Hl. simpl. rewrite merge_merge_list.
    rewrite (merge_list_all_duplicates p a l C Hall).
    rewrite (insert_id _ _ _ Hl).
    destruct (IH (RunState (combined_data st)
                    (total_lineups_processed st + Z.of_nat (length C))
                    (total_lineups_added st
                     + (Z.of_nat (length l) - Z.of_nat (length l)))
                    (files_processed st))) as (st' & Hrun & Hdata & Hadded).
    { intros k1 C1 H1. apply Hcov. by right. }
    exists st'. simpl in *. split; [done|]. split; [done|]. lia.
  - apply IH. intros k1 C1 H1. apply Hcov. by right.
Qed.

(** X16.  Processing a file a second time adds nothing, when the
    thresholds are not negative, the lineups of the file are as the data
    model has them and the first pass raised no exception: the second pass
    raises none, and leaves every group and the number of lineups added as
    they are. *)
Theorem replaying_a_file_adds_nothing (p a : Q)
    (items : list (string * map_value)) (st st1 : run_state) :
  0 <= p → 0 <= a →
  (∀ k C, (k, Lineups C) ∈ items → Forall valid_lineup C) →
  process_items p a st items = (st1, Ok ()) →
  ∃ st2, process_items p a st1 items = (st2, Ok ()) ∧
         combined_data st2 = combined_data st1 ∧
         total_lineups_added st2 = total_lineups_added st1.
Proof.
  intros Hp Ha Hvalid Hrun. apply process_items_all_covered.
  apply (process_items_covers p a items st); [|done].
  intros k C Hin. eapply Forall_impl; [exact (Hvalid k C Hin)|].
  intros c Hc. by apply self_similar.
Qed.

Lemma replaying_a_file_adds_nothing_witness :
  0 <= 10 ∧ 0 <= 5 ∧
  (∀ k C, (k, Lineups C) ∈ [("de_dust2", Lineups [at_origin; at_one])] →
          Forall valid_lineup C) ∧
  process_items 10 5 initial_state [("de_dust2", Lineups [at_origin; at_one])]
    = (RunState {[ "de_dust2" := [at_origin] ]} 2 1 0, Ok ()) ∧
  ∃ st2, process_items 10 5 (RunState {[ "de_dust2" := [at_origin] ]} 2 1 0)
           [("de_dust2", Lineups [at_origin; at_one])] = (st2, Ok ()) ∧
         combined_data st2 = {[ "de_dust2" := [at_origin] ]} ∧
         total_lineups_added st2 = 1%Z.
Proof.
  assert (0 <= 10) as Hp by (vm_compute; discriminate).
  assert (0 <= 5) as Ha by (vm_compute; discriminate).
  assert (∀ k C, (k, Lineups C) ∈ [("de_dust2", Lineups [at_origin; at_one])] →
                 Forall valid_lineup C) as Hv.
  { intros k C [= -> ->]%list_elem_of_singleton. repeat constructor.
    - by exists 0, 0, 0, 0, 0.
    - by exists 1, 0, 0, 0, 0. }
  assert (process_items 10 5 initial_state
            [("de_dust2", Lineups [at_origin; at_one])]
          = (RunState {[ "de_dust2" := [at_origin] ]} 2 1 0, Ok ())) as Hrun
    by (vm_compute; reflexivity).
  exact (conj Hp (conj Ha (conj Hv (conj Hrun
    (replaying_a_file_adds_nothing 10 5 _ _ _ Hp Ha Hv Hrun))))).
Defined.

Lemma process_items_app p a items1 items2 st :
  process_items p a st (items1 ++ items2) =
    match process_items p a st items1 with
    | (st1, Ok _) => process_items p a st1 items2
    | (st1, Raise e) => (st1, Raise e)
    end.
Proof.
  revert st. induction items1 as [|[k v] items1 IH]; intros st; [done|].
  rewrite <- app_comm_cons, !process_items_cons.
  destruct (process_map p a st k v) as [st' [[]|e]]; [apply IH | done].
Qed.

(** X17.  An exception ends the file and costs nothing that was accepted:
    when the merge of a map raises, the rest of the file is not processed
    and the file is not counted, the maps merged before it stay merged, and
    the failing map adds no lineup to what will be saved. *)
Theorem failing_map_ends_the_file (p a : Q)
    (items1 items2 : list (string * map_value)) (k : string) (v : map_value)
    (st st1 st2 : run_state) (e : exn) :
  process_items p a st items1 = (st1, Ok ()) →
  process_map p a st1 k v = (st2, Raise e) →
  process_file p a st (FileData (items1 ++ (k, v) :: items2)) = st2 ∧
  remove_empty_maps (combined_data st2) = remove_empty_maps (combined_data st1) ∧
  total_lineups_added st2 = total_lineups_added st1 ∧
  files_processed st2 = files_processed st.
Proof.
  intros H1 H2. split; [|split; [|split]].
  - unfold process_file. by rewrite process_items_app, H1, process_items_cons, H2.
  - destruct v as [C|v]; [|done]. rewrite process_map_lineups in H2.
    destruct (merge p a _ C); [done|]. injection H2 as <- _. simpl.
    destruct (combined_data st1 !! k) eqn:Hk; [done|].
    unfold remove_empty_maps. rewrite map_filter_insert_False by (simpl; lia).
    by rewrite delete_id.
  - destruct v as [C|v]; [|done]. rewrite process_map_lineups in H2.
    destruct (merge p a _ C); [done|]. by injection H2 as <- _.
  - pose proof (process_map_files_processed p a st1 k v) as Hf2.
    pose proof (process_items_files_processed p a items1 st) as Hf1.
    rewrite H2 in Hf2. rewrite H1 in Hf1. simpl in *. congruence.
Qed.

Lemma failing_map_ends_the_file_witness :
  process_items 10 5 initial_state [("de_mirage", Lineups [yaw_179])]
    = (RunState {[ "de_mirage" := [yaw_179] ]} 1 1 0, Ok ()) ∧
  process_map 10 5 (RunState {[ "de_mirage" := [yaw_179] ]} 1 1 0)
    "de_dust2" (Lineups [at_origin; short_viewangles])
    = (RunState {[ "de_mirage" := [yaw_179]; "de_dust2" := [] ]} 3 1 0,
       Raise IndexError) ∧
  process_file 10 5 initial_state
    (FileData ([("de_mirage", Lineups [yaw_179])]
               ++ ("de_dust2", Lineups [at_origin; short_viewangles])
               :: [("de_inferno", Lineups [at_one])]))
    = RunState {[ "de_mirage" := [yaw_179]; "de_dust2" := [] ]} 3 1 0 ∧
  remove_empty_maps {[ "de_mirage" := [yaw_179]; "de_dust2" := [] ]}
    = remove_empty_maps {[ "de_mirage" := [yaw_179] ]} ∧
  1%Z = 1%Z ∧ 0%Z = 0%Z.
Proof.
  assert (process_items 10 5 initial_state [("de_mirage", Lineups [yaw_179])]
          = (RunState {[ "de_mirage" := [yaw_179] ]} 1 1 0, Ok ())) as H1
    by (vm_compute; reflexivity).
  assert (process_map 10 5 (RunState {[ "de_mirage" := [yaw_179] ]} 1 1 0)
            "de_dust2" (Lineups [at_origin; short_viewangles])
          = (RunState {[ "de_mirage" := [yaw_179]; "de_dust2" := [] ]} 3 1 0,
             Raise IndexError)) as H2
    by (vm_compute; reflexivity).
  exact (conj H1 (conj H2
    (failing_map_ends_the_file 10 5 _ [("de_inferno", Lineups [at_one])]
       _ _ _ _ _ _ H1 H2))).
Defined.


(** ** Values of the wrong length *)

Lemma py_zip_app_l l1 l2 extra :
  (length l2 ≤ length l1)%nat → py_zip (l1 ++ extra) l2 = py_zip l1 l2.
Proof.
  revert l2. induction l1 as [|x l1 IH]; intros [|y l2] Hlen; simpl in *;
    try done; try lia.
  - by destruct extra.
  - f_equal. apply IH. lia.
Qed.

(** X18.  Entries that have no partner are never read: entries of a
    position beyond the length of the other position, and entries of the
    viewangles beyond the second, change no answer of [is_similar_lineup],
    whatever they are. *)
Theorem unpaired_entries_are_ignored (max_pos max_angle : Q) (a b : lineup)
    (l1 l2 extra1 rest extra2 : list value) (pitch yaw : value) :
  a !! "position" = Some (VList l1) → b !! "position" = Some (VList l2) →
  (length l2 ≤ length l1)%nat →
  a !! "viewangles" = Some (VList (pitch :: yaw :: rest)) →
  is_similar_lineup max_pos max_angle
    (<["position" := VList (l1 ++ extra1)]>
       (<["viewangles" := VList (pitch :: yaw :: rest ++ extra2)]> a)) b
  = is_similar_lineup max_pos max_angle a b.
Proof.
  intros Ha Hb Hlen Hva. unfold is_similar_lineup.
  rewrite lookup_insert_eq, lookup_insert_ne by done.
  rewrite lookup_insert_eq, Ha, Hb, Hva.
  destruct (b !! "viewangles") as [va2|]; [|done].
  assert (calculate_distance (VList (l1 ++ extra1)) (VList l2)
          = calculate_distance (VList l1) (VList l2)) as ->.
  { unfold calculate_distance. simpl. by rewrite py_zip_app_l. }
  assert (calculate_angle_difference (VList (pitch :: yaw :: rest ++ extra2)) va2
          = calculate_angle_difference (VList (pitch :: yaw :: rest)) va2) as ->
    by reflexivity.
  done.
Qed.

Lemma unpaired_entries_are_ignored_witness :
  short_position !! "position" = Some (VList [VNum 0; VNum 0]) ∧
  short_position !! "position" = Some (VList [VNum 0; VNum 0]) ∧
  (length [VNum 0; VNum 0] ≤ length [VNum 0; VNum 0])%nat ∧
  short_position !! "viewangles" = Some (VList [VNum 0; VNum 0; VNum 90]) ∧
  is_similar_lineup 10 5
    (<["position" := VList ([VNum 0; VNum 0] ++ [VStr "up"])]>
       (<["viewangles" := VList (VNum 0 :: VNum 0 :: [VNum 90] ++ [VNull])]>
          short_position)) short_position
  = is_similar_lineup 10 5 short_position short_position.
Proof.
  assert (length [VNum 0; VNum 0] ≤ length [VNum 0; VNum 0])%nat as Hlen
    by (simpl; lia).
  exact (conj eq_refl (conj eq_refl (conj Hlen (conj eq_refl
    (unpaired_entries_are_ignored 10 5 short_position short_position
       [VNum 0; VNum 0] [VNum 0; VNum 0] [VStr "up"] [VNum 90] [VNull]
       (VNum 0) (VNum 0) eq_refl eq_refl Hlen eq_refl))))).
Defined.
